(** * adr_scanner: a shallow embedding of [hooks/adr_scanner.py]

    The script scans a directory for markdown files, derives a title for
    each one and rewrites the part of a target file that lies between two
    marker strings.  This development embeds the functions of the script
    and states its documented behaviour as theorems about them.

    Conventions of the embedding.
    - A Python [str] is a list of Unicode code points ([list N]).
    - [re] patterns are values of type [regex], run by a backtracking
      matcher that tries the alternatives of a repetition in the order
      Python's engine does (longest first for greedy, shortest first for
      lazy repetitions).
    - Exceptions are values of type [exn]; a function that can raise
      returns a [result].
    - The file system is a tree of directories and files holding text. *)

From Stdlib Require Import List NArith ZArith Bool Lia Arith.
From Stdlib Require Import Ascii.
From Stdlib Require String.
Import String.StringSyntax.
Delimit Scope string_scope with string.
From Stdlib Require Import Sorting.Sorted Sorting.Permutation.
Import ListNotations.

Set Warnings "-register-all".

(** ** Text *)

Definition str := list N.

Definition chr_of (a : ascii) : N := N_of_ascii a.

Definition LF : N := 10.
Definition CR : N := 13.
Definition TAB : N := 9.
Definition SP : N := 32.
Definition BACKSLASH : N := 92.

(** [py "a\nb"] reads a literal the way Python reads ["a\nb"]: the escapes
    [\n], [\t], [\r] and [\\] stand for one character. *)
Fixpoint unescape (s : String.string) : str :=
  match s with
  | String.EmptyString => []
  | String.String c s' =>
      if N.eqb (chr_of c) BACKSLASH then
        match s' with
        | String.String d s'' =>
            if N.eqb (chr_of d) 110%N then LF :: unescape s''
            else if N.eqb (chr_of d) 116%N then TAB :: unescape s''
            else if N.eqb (chr_of d) 114%N then CR :: unescape s''
            else if N.eqb (chr_of d) BACKSLASH then BACKSLASH :: unescape s''
            else chr_of c :: unescape s'
        | String.EmptyString => [chr_of c]
        end
      else chr_of c :: unescape s'
  end.

Definition py (s : String.string) : str := unescape s.

Arguments py s%_string.

Fixpoint str_eqb (a b : str) : bool :=
  match a, b with
  | [], [] => true
  | x :: a', y :: b' => N.eqb x y && str_eqb a' b'
  | _, _ => false
  end.

(** [s.isspace()] for one character, the test behind [str.strip()] and the
    pattern [\s]. *)
Definition isspace (c : N) : bool :=
  (((9 <=? c) && (c <=? 13)) || ((28 <=? c) && (c <=? 32))
   || (c =? 133) || (c =? 160) || (c =? 5760)
   || ((8192 <=? c) && (c <=? 8202))
   || (c =? 8232) || (c =? 8233) || (c =? 8239) || (c =? 8287)
   || (c =? 12288))%N.

(** The line boundaries of [str.splitlines()]. *)
Definition is_linebreak (c : N) : bool :=
  (((10 <=? c) && (c <=? 13)) || ((28 <=? c) && (c <=? 30))
   || (c =? 133) || (c =? 8232) || (c =? 8233))%N.

Fixpoint lstrip_with (p : N -> bool) (s : str) : str :=
  match s with
  | c :: s' => if p c then lstrip_with p s' else s
  | [] => []
  end.

Definition rstrip_with (p : N -> bool) (s : str) : str :=
  rev (lstrip_with p (rev s)).

(** [s.strip()], [s.rstrip()] *)
Definition rstrip (s : str) : str := rstrip_with isspace s.
Definition strip (s : str) : str := rstrip_with isspace (lstrip_with isspace s).

(** [s.lstrip(chars)]: drops every leading character that occurs in
    [chars]. *)
Definition mem_chr (c : N) (chars : str) : bool := existsb (N.eqb c) chars.
Definition lstrip_chars (chars : str) (s : str) : str :=
  lstrip_with (fun c => mem_chr c chars) s.

(** [sep.join(parts)] *)
Fixpoint join (sep : str) (parts : list str) : str :=
  match parts with
  | [] => []
  | [p] => p
  | p :: ps => p ++ sep ++ join sep ps
  end.

Fixpoint starts_with (p s : str) : bool :=
  match p, s with
  | [], _ => true
  | x :: p', y :: s' => N.eqb x y && starts_with p' s'
  | _ :: _, [] => false
  end.

(** [s.replace(old, new)] for a one-character [old]. *)
Definition replace_chr (old : N) (new : str) (s : str) : str :=
  flat_map (fun c => if N.eqb c old then new else [c]) s.

(** [s.splitlines()]: [cur] holds the current line reversed, [skip_lf]
    says that the previous character was a carriage return. *)
Fixpoint splitlines_go (cur : str) (skip_lf : bool) (s : str) : list str :=
  match s with
  | [] => match cur with [] => [] | _ => [rev cur] end
  | c :: s' =>
      if skip_lf && (c =? LF)%N then splitlines_go cur false s'
      else if is_linebreak c then rev cur :: splitlines_go [] (c =? CR)%N s'
      else splitlines_go (c :: cur) false s'
  end.

Definition splitlines (s : str) : list str := splitlines_go [] false s.

(** [s.split(sep)] for a one-character separator. *)
Fixpoint split_go (sep : N) (cur : str) (s : str) : list str :=
  match s with
  | [] => [rev cur]
  | c :: s' =>
      if N.eqb c sep then rev cur :: split_go sep [] s'
      else split_go sep (c :: cur) s'
  end.

Definition split_chr (sep : N) (s : str) : list str := split_go sep [] s.

(** ** Exceptions *)

Inductive exn :=
| RuntimeError (msg : str)
| ValueError
| OSError.

Inductive result (A : Type) :=
| Ok (a : A)
| Raise (e : exn).

Arguments Ok {A} a.
Arguments Raise {A} e.

(** ** Regular expressions

    The two patterns of the script are sequences of literals, repetitions
    of a character class, the anchors of [re.MULTILINE] and group
    parentheses. *)

Inductive atom :=
| Lit (s : str)
| Rep (greedy : bool) (least : nat) (cls : N -> bool)
| Bol
| Eol
| GOpen (n : nat)
| GClose (n : nat).

Definition regex := list atom.

(** A position in the subject: its index, the character before it and the
    text from it on. *)
Record cursor := Cursor { pos : nat; last : option N; rest : str }.

(** The spans of the groups closed so far, and where the open ones began. *)
Record caps := Caps { opened : nat -> nat; span : nat -> option (nat * nat) }.

Definition no_caps : caps := Caps (fun _ => 0) (fun _ => None).

Definition open_group (n : nat) (p : nat) (g : caps) : caps :=
  Caps (fun k => if Nat.eqb k n then p else opened g k) (span g).

Definition close_group (n : nat) (p : nat) (g : caps) : caps :=
  Caps (opened g)
       (fun k => if Nat.eqb k n then Some (opened g n, p) else span g k).

Fixpoint eat (s : str) (c : cursor) : option cursor :=
  match s with
  | [] => Some c
  | x :: s' =>
      match rest c with
      | y :: r => if N.eqb x y then eat s' (Cursor (S (pos c)) (Some y) r)
                  else None
      | [] => None
      end
  end.

(** The positions reachable from a cursor by reading 0, 1, 2, ...
    characters of the class, in that order. *)
Fixpoint cuts_from (cls : N -> bool) (p : nat) (l : option N) (r : str)
  : list cursor :=
  Cursor p l r ::
  match r with
  | x :: r' => if cls x then cuts_from cls (S p) (Some x) r' else []
  | [] => []
  end.

Definition cuts (cls : N -> bool) (c : cursor) : list cursor :=
  cuts_from cls (pos c) (last c) (rest c).

Fixpoint first_some {A B : Type} (f : A -> option B) (l : list A) : option B :=
  match l with
  | [] => None
  | x :: l' => match f x with Some y => Some y | None => first_some f l' end
  end.

Definition line_starts (l : option N) : bool :=
  match l with None => true | Some x => N.eqb x LF end.

Definition at_bol (c : cursor) : bool := line_starts (last c).

Definition line_ends (t : str) : bool :=
  match t with [] => true | x :: _ => N.eqb x LF end.

Definition at_eol (c : cursor) : bool := line_ends (rest c).

(** [run r c g]: match [r] at [c]; the result is the end of the match and
    the groups. *)
Fixpoint run (r : regex) (c : cursor) (g : caps) : option (nat * caps) :=
  match r with
  | [] => Some (pos c, g)
  | Lit s :: r' =>
      match eat s c with Some c' => run r' c' g | None => None end
  | Rep greedy least cls :: r' =>
      let cs := skipn least (cuts cls c) in
      first_some (fun c' => run r' c' g) (if greedy then rev cs else cs)
  | Bol :: r' => if at_bol c then run r' c g else None
  | Eol :: r' => if at_eol c then run r' c g else None
  | GOpen n :: r' => run r' c (open_group n (pos c) g)
  | GClose n :: r' => run r' c (close_group n (pos c) g)
  end.

(** A match object: [m.start()], [m.end()] and the group spans. *)
Record rmatch := Match { m_start : nat; m_end : nat; m_caps : caps }.

Definition try_at (r : regex) (c : cursor) : option rmatch :=
  match run r c no_caps with
  | Some (e, g) => Some (Match (pos c) e g)
  | None => None
  end.

(** [pattern.search(text)]: the match at the leftmost position that has
    one. *)
Fixpoint search_from (r : regex) (p : nat) (l : option N) (t : str)
  : option rmatch :=
  match try_at r (Cursor p l t) with
  | Some m => Some m
  | None =>
      match t with
      | x :: t' => search_from r (S p) (Some x) t'
      | [] => None
      end
  end.

Definition search (r : regex) (text : str) : option rmatch :=
  search_from r 0 None text.

(** [text[i:j]] *)
Definition slice (text : str) (i j : nat) : str := firstn (j - i) (skipn i text).

(** [m.group(n)], [m.start(n)] *)
Definition group (text : str) (m : rmatch) (n : nat) : str :=
  match span (m_caps m) n with
  | Some (i, j) => slice text i j
  | None => []
  end.

Definition group_start (m : rmatch) (n : nat) : nat :=
  match span (m_caps m) n with
  | Some (i, _) => i
  | None => 0
  end.

(** Character classes *)
Definition any_chr (c : N) : bool := true.
Definition not_newline (c : N) : bool := negb (N.eqb c LF).
Definition blank (c : N) : bool := N.eqb c SP || N.eqb c TAB.

(** ** Marker substitution *)

(** [re.compile(rf"({re.escape(start)})(.*?){re.escape(end)}", flags=re.DOTALL)] *)
Definition marker_pattern (start end_ : str) : regex :=
  [GOpen 1; Lit start; GClose 1;
   GOpen 2; Rep false 0 any_chr; GClose 2;
   Lit end_].

Definition markers_not_found (start end_ : str) : str :=
  py "Markers not found. Ensure both markers exist in target file:\n"
  ++ start ++ [LF] ++ end_.

Definition replace_between_markers (content start end_ replacement : str)
  : result (str * bool) :=
  match search (marker_pattern start end_) content with
  | None => Raise (RuntimeError (markers_not_found start end_))
  | Some m =>
      let before := firstn (group_start m 1) content in
      let after := skipn (m_end m) content in
      let new := before ++ start ++ [LF] ++ replacement ++ end_ ++ after in
      Ok (new, negb (str_eqb new content))
  end.

(** The index of the first occurrence of [b] in [r]. *)
Fixpoint find (b r : str) : option nat :=
  if starts_with b r then Some 0
  else match r with
       | [] => None
       | _ :: r' => option_map S (find b r')
       end.

Fixpoint last_of (l : option N) (s : str) : option N :=
  match s with
  | [] => l
  | x :: s' => last_of (Some x) s'
  end.


(** ** Paths

    A resolved absolute [Path] is the list of its segments below the root:
    [Path("/docs/adr/a.md")] is [[docs; adr; a.md]]. *)

Definition path := list str.

Definition DOT : N := 46.
Definition SLASH : N := 47.
Definition HASH : N := 35.

(** [p.name] *)
Definition name (p : path) : str := List.last p [].

(** [p.parent]; the root is its own parent. *)
Definition parent (p : path) : path := removelast p.

(** [p.as_posix()], also [str(p)] on POSIX *)
Definition as_posix (p : path) : str := SLASH :: join [SLASH] p.

(** [s.rfind(".")], [None] standing for [-1] *)
Fixpoint rfind_chr (c : N) (s : str) : option nat :=
  match s with
  | [] => None
  | x :: s' =>
      match rfind_chr c s' with
      | Some i => Some (S i)
      | None => if N.eqb x c then Some 0 else None
      end
  end.

(** [p.suffix] and [p.stem] (pathlib of Python 3.10 to 3.13): the last dot
    of the name splits it, unless it is the first or the last
    character. *)
Definition suffix_index (nm : str) : option nat :=
  match rfind_chr DOT nm with
  | Some i => if (0 <? i) && (i <? length nm - 1) then Some i else None
  | None => None
  end.

Definition suffix (p : path) : str :=
  match suffix_index (name p) with
  | Some i => skipn i (name p)
  | None => []
  end.

Definition stem (p : path) : str :=
  match suffix_index (name p) with
  | Some i => firstn i (name p)
  | None => name p
  end.

Fixpoint strip_prefix (pre p : path) : option path :=
  match pre, p with
  | [], _ => Some p
  | a :: pre', b :: p' => if str_eqb a b then strip_prefix pre' p' else None
  | _ :: _, [] => None
  end.

(** [p.relative_to(other).parts]; [ValueError] when [p] is not below
    [other]. *)
Definition relative_to (p other : path) : result (list str) :=
  match strip_prefix other p with
  | Some rel => Ok rel
  | None => Raise ValueError
  end.

(** [os.path.relpath(path, start)] on two resolved absolute paths *)
Fixpoint relpath_parts (p start : path) : list str :=
  match p, start with
  | a :: p', b :: start' =>
      if str_eqb a b then relpath_parts p' start'
      else repeat (py "..") (length start) ++ p
  | _, _ => repeat (py "..") (length start) ++ p
  end.

Definition relpath (p start : path) : str :=
  match relpath_parts p start with
  | [] => py "."
  | parts => join [SLASH] parts
  end.

(** [(Path.cwd() / s).resolve()] in a tree without symbolic links *)
Fixpoint resolve_parts (acc : path) (parts : list str) : path :=
  match parts with
  | [] => acc
  | s :: parts' =>
      if str_eqb s [] || str_eqb s (py ".") then resolve_parts acc parts'
      else if str_eqb s (py "..") then resolve_parts (removelast acc) parts'
      else resolve_parts (acc ++ [s]) parts'
  end.

Definition resolve (cwd : path) (s : str) : path :=
  resolve_parts (if starts_with [SLASH] s then [] else cwd) (split_chr SLASH s).

(** ** The file system *)

(** A regular file with its stored text ([None]: the file cannot be read)
    and modification time, or a directory with its entries in the order
    the system lists them. *)
Inductive node :=
| File (data : option str) (mtime : Z)
| Dir (mtime : Z) (entries : list (str * node)).

Fixpoint entry (nm : str) (es : list (str * node)) : option node :=
  match es with
  | [] => None
  | (k, n) :: es' => if str_eqb k nm then Some n else entry nm es'
  end.

Fixpoint lookup (p : path) (fs : node) : option node :=
  match p with
  | [] => Some fs
  | s :: p' =>
      match fs with
      | Dir _ es =>
          match entry s es with
          | Some n => lookup p' n
          | None => None
          end
      | File _ _ => None
      end
  end.

(** [p.exists()], [p.is_file()] *)
Definition exists_ (fs : node) (p : path) : bool :=
  match lookup p fs with Some _ => true | None => false end.

Definition is_file (fs : node) (p : path) : bool :=
  match lookup p fs with Some (File _ _) => true | _ => false end.

(** Text mode reads translate [\r\n] and [\r] to [\n]. *)
Fixpoint universal_newlines_go (skip_lf : bool) (s : str) : str :=
  match s with
  | [] => []
  | c :: s' =>
      if skip_lf && (c =? LF)%N then universal_newlines_go false s'
      else if (c =? CR)%N then LF :: universal_newlines_go true s'
      else c :: universal_newlines_go false s'
  end.

Definition universal_newlines (s : str) : str := universal_newlines_go false s.

(** [p.read_text(encoding="utf-8", errors="replace")] *)
Definition read_text (fs : node) (p : path) : result str :=
  match lookup p fs with
  | Some (File (Some t) _) => Ok (universal_newlines t)
  | _ => Raise OSError
  end.

Fixpoint replace_entry (nm : str) (n' : node) (es : list (str * node))
  : list (str * node) :=
  match es with
  | [] => []
  | (k, n) :: es' =>
      if str_eqb k nm then (k, n') :: es' else (k, n) :: replace_entry nm n' es'
  end.

(** [p.write_text(text, encoding="utf-8")] at time [now]: replaces the
    text of a regular file, or creates the file in an existing directory;
    [None] when the call raises. *)
Fixpoint write_text (p : path) (text : str) (now : Z) (fs : node) : option node :=
  match p with
  | [] =>
      match fs with
      | File _ _ => Some (File (Some text) now)
      | Dir _ _ => None
      end
  | s :: p' =>
      match fs with
      | Dir t es =>
          match entry s es with
          | Some n =>
              match write_text p' text now n with
              | Some n' => Some (Dir t (replace_entry s n' es))
              | None => None
              end
          | None =>
              match p' with
              | [] => Some (Dir now (es ++ [(s, File (Some text) now)]))
              | _ :: _ => None
              end
          end
      | File _ _ => None
      end
  end.

(** [src_dir.rglob("*")] as paths relative to the directory: the entries
    of the directory, then those of each subdirectory in turn. *)
Fixpoint rglob_rel (n : node) : list (list str) :=
  match n with
  | File _ _ => []
  | Dir _ es =>
      map (fun e => [fst e]) es ++
      (fix below (es : list (str * node)) : list (list str) :=
         match es with
         | [] => []
         | (nm, c) :: es' => map (cons nm) (rglob_rel c) ++ below es'
         end) es
  end.

Definition rglob (fs : node) (dir : path) : list path :=
  match lookup dir fs with
  | Some n => map (app dir) (rglob_rel n)
  | None => []
  end.

(** ** Title derivation *)

(** [re.compile(r"^[ \t]*#[ \t]+(.+?)\s*$", re.MULTILINE)] *)
Definition H1_REGEX : regex :=
  [Bol; Rep true 0 blank; Lit [HASH]; Rep true 1 blank;
   GOpen 1; Rep false 1 not_newline; GClose 1;
   Rep true 0 isspace; Eol].

Definition first_h1 (text : str) : option str :=
  match search H1_REGEX text with
  | Some m => Some (strip (group text m 1))
  | None => None
  end.

(** The [for] loop of [title_for]. *)
Fixpoint first_nonblank (lines : list str) : option str :=
  match lines with
  | [] => None
  | line :: lines' =>
      match strip line with
      | [] => first_nonblank lines'
      | t => Some t
      end
  end.

Definition title_of_text (stem_ : str) (text : str) : str :=
  match first_h1 text with
  | Some (c :: h) => c :: h
  | _ =>
      match first_nonblank (splitlines text) with
      | Some t => t
      | None => stem_
      end
  end.

Definition title_for (fs : node) (p : path) : str :=
  match read_text fs p with
  | Raise _ => stem p
  | Ok text => title_of_text (stem p) text
  end.

(** ** Exclusion patterns *)

Definition normalize_glob (pat : str) : str :=
  lstrip_chars (py "./") (replace_chr BACKSLASH [SLASH] pat).

(** *** [fnmatch.fnmatch] on POSIX

    [fnmatch.translate] turns a pattern into a regular expression that has
    to match the whole name: [*] becomes [.*], [?] becomes [.] (both with
    [re.DOTALL]), a bracket expression becomes a character set and every
    other character stands for itself. *)

Inductive gtok :=
| GStar
| GAny
| GSet (neg : bool) (singles : str) (ranges : list (N * N))
| GChr (c : N).

Definition STAR : N := 42.
Definition QUESTION : N := 63.
Definition LBRACKET : N := 91.
Definition RBRACKET : N := 93.
Definition BANG : N := 33.
Definition HYPHEN : N := 45.

(** The length of the bracket expression that starts after a [[]: a
    leading [!] and a [\]] right after it belong to the expression, which
    then runs up to the next [\]]; [None] when there is none. *)
Definition bracket_length (s : str) : option nat :=
  let j1 := match s with c :: _ => if N.eqb c BANG then 1 else 0 | [] => 0 end in
  let j2 := match skipn j1 s with
            | c :: _ => if N.eqb c RBRACKET then S j1 else j1
            | [] => j1
            end in
  match find [RBRACKET] (skipn j2 s) with
  | Some k => Some (j2 + k)
  | None => None
  end.

(** The chunks between the hyphens that form ranges: a hyphen is looked
    for from the second character of the expression (the third after [!])
    and from the third character after the previous hyphen. *)
Fixpoint chunks_go (skip : nat) (cur : str) (s : str) : list str :=
  match s with
  | [] => [rev cur]
  | c :: s' =>
      match skip with
      | S k => chunks_go k (c :: cur) s'
      | O => if N.eqb c HYPHEN then rev cur :: chunks_go 2 [] s'
             else chunks_go 0 (c :: cur) s'
      end
  end.

(** A hyphen at the very end is an ordinary member of the last chunk. *)
Fixpoint close_chunks (cs : list str) : list str :=
  match cs with
  | [c; []] => [c ++ [HYPHEN]]
  | c :: cs' => c :: close_chunks cs'
  | [] => []
  end.

(** Ranges whose bounds are in decreasing order are removed. *)
Fixpoint merge_chunks (cs : list str) : list str :=
  match cs with
  | [] => []
  | c :: cs' =>
      match merge_chunks cs' with
      | [] => [c]
      | d :: ds =>
          if (List.hd 0%N d <? List.last c 0%N)%N
          then (removelast c ++ List.tl d) :: ds
          else c :: d :: ds
      end
  end.

(** The members of the chunks: a range from the end of each chunk to the
    start of the next one, every other character by itself. *)
Fixpoint chunk_singles (first : bool) (cs : list str) : str :=
  match cs with
  | [] => []
  | [c] => if first then c else List.tl c
  | c :: cs' =>
      removelast (if first then c else List.tl c) ++ chunk_singles false cs'
  end.

Fixpoint chunk_ranges (cs : list str) : list (N * N) :=
  match cs with
  | c :: ((d :: _) as cs') => (List.last c 0%N, List.hd 0%N d) :: chunk_ranges cs'
  | _ => []
  end.

Definition bracket_set (stuff : str) : gtok :=
  let neg := starts_with [BANG] stuff in
  if negb (mem_chr HYPHEN stuff) then
    GSet neg (if neg then List.tl stuff else stuff) []
  else
    let cs := merge_chunks (close_chunks (chunks_go (if neg then 2 else 1) [] stuff)) in
    let singles := chunk_singles true cs in
    GSet neg (if neg then List.tl singles else singles) (chunk_ranges cs).

(** [skip] characters belong to a bracket expression already translated;
    [after_star] says that the previous token is a [GStar], so that a run
    of [*] gives one token. *)
Fixpoint glob_tokens_go (skip : nat) (after_star : bool) (pat : str) : list gtok :=
  match pat with
  | [] => []
  | c :: pat' =>
      match skip with
      | S k => glob_tokens_go k false pat'
      | O =>
          if N.eqb c STAR then
            if after_star then glob_tokens_go 0 true pat'
            else GStar :: glob_tokens_go 0 true pat'
          else if N.eqb c QUESTION then GAny :: glob_tokens_go 0 false pat'
          else if N.eqb c LBRACKET then
            match bracket_length pat' with
            | Some j => bracket_set (firstn j pat') :: glob_tokens_go (S j) false pat'
            | None => GChr c :: glob_tokens_go 0 false pat'
            end
          else GChr c :: glob_tokens_go 0 false pat'
      end
  end.

Definition glob_tokens (pat : str) : list gtok := glob_tokens_go 0 false pat.

Definition in_set (neg : bool) (singles : str) (ranges : list (N * N)) (c : N) : bool :=
  xorb neg (mem_chr c singles
            || existsb (fun r => (fst r <=? c)%N && (c <=? snd r)%N) ranges).

Fixpoint gmatch (toks : list gtok) (s : str) : bool :=
  match toks with
  | [] => match s with [] => true | _ :: _ => false end
  | GStar :: toks' =>
      (fix star (s : str) : bool :=
         gmatch toks' s || match s with [] => false | _ :: s' => star s' end) s
  | GAny :: toks' =>
      match s with _ :: s' => gmatch toks' s' | [] => false end
  | GSet neg singles ranges :: toks' =>
      match s with
      | c :: s' => in_set neg singles ranges c && gmatch toks' s'
      | [] => false
      end
  | GChr x :: toks' =>
      match s with c :: s' => N.eqb x c && gmatch toks' s' | [] => false end
  end.

Definition fnmatch (name_ pat : str) : bool := gmatch (glob_tokens pat) name_.

(** ** File discovery *)

Definition mem_str (s : str) (l : list str) : bool := existsb (str_eqb s) l.

(** The body of the loop of [iter_markdown_files] over the paths that
    [rglob] yields. *)
Fixpoint iter_go (fs : node) (src_dir : path) (rel_ex_patterns exts : list str)
  (ps : list path) : result (list path) :=
  match ps with
  | [] => Ok []
  | p :: ps' =>
      if negb (is_file fs p) then iter_go fs src_dir rel_ex_patterns exts ps'
      else if negb (mem_str (lstrip_chars (py ".") (suffix p)) exts)
      then iter_go fs src_dir rel_ex_patterns exts ps'
      else
        match relative_to p src_dir with
        | Raise e => Raise e
        | Ok parts =>
            let rel := join [SLASH] parts in
            if existsb (fun pat => fnmatch rel pat) rel_ex_patterns
            then iter_go fs src_dir rel_ex_patterns exts ps'
            else
              match iter_go fs src_dir rel_ex_patterns exts ps' with
              | Ok l => Ok (p :: l)
              | Raise e => Raise e
              end
        end
  end.

Definition iter_markdown_files (fs : node) (src_dir : path)
  (ex_patterns exts : list str) : result (list path) :=
  let rel_ex_patterns := map normalize_glob ex_patterns in
  iter_go fs src_dir rel_ex_patterns exts (rglob fs src_dir).

(** ** Sorting *)

(** [a < b] on [str]: lexicographic on code points *)
Fixpoint str_ltb (a b : str) : bool :=
  match a, b with
  | _, [] => false
  | [], _ :: _ => true
  | x :: a', y :: b' => (x <? y)%N || ((x =? y)%N && str_ltb a' b')
  end.

(** [sorted(xs, key=key)]: a stable sort that compares keys with [<]. *)
Fixpoint insert_by {A K : Type} (lt : K -> K -> bool) (key : A -> K)
  (x : A) (l : list A) : list A :=
  match l with
  | [] => [x]
  | y :: l' => if lt (key y) (key x) then y :: insert_by lt key x l' else x :: l
  end.

Fixpoint sorted_by {A K : Type} (lt : K -> K -> bool) (key : A -> K)
  (l : list A) : list A :=
  match l with
  | [] => []
  | x :: l' => insert_by lt key x (sorted_by lt key l')
  end.

(** The case conversions of [str].  They depend on the Unicode character
    database, so the script is embedded over any implementation of
    them. *)
Class StrCase := {
  str_lower : str -> str;
  str_upper : str -> str;
  str_title : str -> str
}.

(** The conversions on ASCII letters; other characters are left alone and
    count as uncased.  On ASCII text this is what Python computes. *)
Definition is_ascii_upper (c : N) : bool := ((65 <=? c) && (c <=? 90))%N.
Definition is_ascii_lower (c : N) : bool := ((97 <=? c) && (c <=? 122))%N.
Definition ascii_lower_chr (c : N) : N := if is_ascii_upper c then (c + 32)%N else c.
Definition ascii_upper_chr (c : N) : N := if is_ascii_lower c then (c - 32)%N else c.

Fixpoint ascii_title_go (previous_is_cased : bool) (s : str) : str :=
  match s with
  | [] => []
  | c :: s' =>
      (if previous_is_cased then ascii_lower_chr c else ascii_upper_chr c)
      :: ascii_title_go (is_ascii_upper c || is_ascii_lower c) s'
  end.

#[export] Instance ascii_case : StrCase := {
  str_lower := map ascii_lower_chr;
  str_upper := map ascii_upper_chr;
  str_title := ascii_title_go false
}.

Inductive sort_mode := SortName | SortPath | SortMtime.

(** The tuples that [sort_key] returns. *)
Inductive key :=
| KStr (s : str)
| KTime (t : Z) (s : str).

Definition key_ltb (a b : key) : bool :=
  match a, b with
  | KStr s, KStr s' => str_ltb s s'
  | KTime t s, KTime t' s' => (t <? t')%Z || ((t =? t')%Z && str_ltb s s')
  | _, _ => false
  end.

(** [path.stat().st_mtime] *)
Definition stat_mtime (fs : node) (p : path) : result Z :=
  match lookup p fs with
  | Some (File _ t) => Ok t
  | Some (Dir t _) => Ok t
  | None => Raise OSError
  end.

Definition sort_key `{StrCase} (fs : node) (sort : sort_mode) (p : path) : key :=
  match sort with
  | SortMtime =>
      match stat_mtime fs p with
      | Ok t => KTime t (str_lower (name p))
      | Raise _ => KTime 0 (str_lower (name p))
      end
  | SortPath => KStr (str_lower (as_posix p))
  | SortName => KStr (str_lower (name p))
  end.

(** ** Rendering *)

Inductive case_mode := CaseNone | CaseTitle | CaseUpper | CaseLower.

Definition UNDERSCORE : N := 95.

Definition apply_case `{StrCase} (s : str) (mode : case_mode) : str :=
  match mode with
  | CaseTitle => str_title (replace_chr UNDERSCORE [SP] (replace_chr HYPHEN [SP] s))
  | CaseUpper => str_upper s
  | CaseLower => str_lower s
  | CaseNone => s
  end.

(** [l[:d]] *)
Definition slice_to {A : Type} (l : list A) (d : Z) : list A :=
  if (0 <=? d)%Z then firstn (Z.to_nat d) l
  else firstn (length l - Z.to_nat (- d)) l.

Definition group_key_for (p src_dir : path) (depth : Z) : result str :=
  match relative_to p src_dir with
  | Raise e => Raise e
  | Ok rel_parts =>
      let dirs := removelast rel_parts in
      match dirs with
      | [] => Ok []
      | _ :: _ => Ok (join [SLASH] (slice_to dirs depth))
      end
  end.

Definition list_item (fs : node) (target_dir : path) (f : path) : str :=
  let link_title := title_for fs f in
  let rel_link := relpath f target_dir in
  let safe_title :=
    replace_chr RBRACKET (py "\\]") (replace_chr LBRACKET (py "\\[") link_title) in
  py "- [" ++ safe_title ++ py "](" ++ rel_link ++ py ")".

(** [groups.setdefault(key, []).append(f)] on a dictionary kept in
    insertion order *)
Fixpoint setdefault_append (k : str) (f : path) (groups : list (str * list path))
  : list (str * list path) :=
  match groups with
  | [] => [(k, [f])]
  | (k', fs) :: groups' =>
      if str_eqb k' k then (k', fs ++ [f]) :: groups'
      else (k', fs) :: setdefault_append k f groups'
  end.

(** [groups[key]] *)
Fixpoint group_files (k : str) (groups : list (str * list path)) : list path :=
  match groups with
  | [] => []
  | (k', fs) :: groups' => if str_eqb k' k then fs else group_files k groups'
  end.

Fixpoint make_groups (src_dir : path) (depth : Z) (files : list path)
  (groups : list (str * list path)) : result (list (str * list path)) :=
  match files with
  | [] => Ok groups
  | f :: files' =>
      match group_key_for f src_dir depth with
      | Raise e => Raise e
      | Ok k => make_groups src_dir depth files' (setdefault_append k f groups)
      end
  end.

Inductive group_mode := GroupNone | GroupSubdir.

Definition group_title `{StrCase} (k : str) (group_title_case : case_mode) : str :=
  let title := match k with [] => py "Misc" | _ :: _ => k end in
  apply_case title group_title_case.

Definition group_header `{StrCase} (k : str) (group_heading_level : Z)
  (group_title_case : case_mode) : str :=
  repeat HASH (Z.to_nat (Z.max 1 group_heading_level))
  ++ py " " ++ group_title k group_title_case.

(** The list [out] of [build_list_markdown] after its second loop. *)
Definition group_lines `{StrCase} (fs : node) (target_dir : path)
  (groups : list (str * list path)) (group_heading_level : Z)
  (group_title_case : case_mode) : list str :=
  flat_map
    (fun k =>
       group_header k group_heading_level group_title_case
       :: map (list_item fs target_dir) (group_files k groups) ++ [[]])
    (sorted_by str_ltb str_lower (map fst groups)).

(** ["\n".join(out).rstrip() + ("\n" if out else "")] *)
Definition join_trimmed (out : list str) : str :=
  rstrip (join [LF] out) ++ match out with [] => [] | _ :: _ => [LF] end.

Definition build_list_markdown `{StrCase} (fs : node) (files : list path)
  (target_file src_dir : path) (group_by : group_mode) (group_depth : Z)
  (group_heading_level : Z) (group_title_case : case_mode) : result str :=
  let target_dir := parent target_file in
  match group_by with
  | GroupNone =>
      let lines := map (list_item fs target_dir) files in
      Ok (join [LF] lines ++ match lines with [] => [] | _ :: _ => [LF] end)
  | GroupSubdir =>
      match make_groups src_dir group_depth files [] with
      | Raise e => Raise e
      | Ok groups =>
          Ok (join_trimmed (group_lines fs target_dir groups
                              group_heading_level group_title_case))
      end
  end.

(** ** The run *)

(** The namespace that [parse_args] returns. *)
Record args := Args {
  src_dir : str;
  target_file : str;
  marker_start : str;
  marker_end : str;
  exclude : list str;
  extensions : str;
  sort : sort_mode;
  no_fail_on_change : bool;
  group_by : group_mode;
  group_depth : Z;
  group_heading_level : Z;
  group_title_case : case_mode
}.

(** [parse_args([])] *)
Definition default_args : args := {|
  src_dir := py "docs/adr";
  target_file := py "README.md";
  marker_start := py "<!--adrlist-->";
  marker_end := py "<!--adrliststop-->";
  exclude := [];
  extensions := py "md,MD";
  sort := SortName;
  no_fail_on_change := false;
  group_by := GroupNone;
  group_depth := 1;
  group_heading_level := 2;
  group_title_case := CaseTitle
|}.

Inductive stream := Stdout | Stderr.

(** What a call of [main] leaves behind: the status it returns, the lines
    it printed and the file system; or an exception that nothing
    catches. *)
Inductive outcome :=
| Exit (status : Z) (printed : list (stream * str)) (fs : node)
| Uncaught (e : exn).

Definition COMMA : N := 44.
Definition CROSS : N := 10006.
Definition CHECK : N := 10004.
Definition CYCLE : N := 8635.
Definition ELLIPSIS : N := 8230.

Definition parse_extensions (extensions : str) : list str :=
  filter (fun e => negb (str_eqb e [])) (map strip (split_chr COMMA extensions)).

(** [main], run in the directory [cwd] at time [now]. *)
Definition main `{StrCase} (a : args) (cwd : path) (now : Z) (fs : node) : outcome :=
  let src := resolve cwd (src_dir a) in
  let target := resolve cwd (target_file a) in
  if negb (exists_ fs src) then
    Exit 2 [(Stderr, CROSS :: py " Source directory not found: " ++ as_posix src)] fs
  else if negb (exists_ fs target) then
    Exit 2 [(Stderr, CROSS :: py " Target file not found: " ++ as_posix target)] fs
  else
    let exts := parse_extensions (extensions a) in
    match iter_markdown_files fs src (exclude a) exts with
    | Raise e => Uncaught e
    | Ok found =>
        let files := sorted_by key_ltb (sort_key fs (sort a)) found in
        match build_list_markdown fs files target src (group_by a) (group_depth a)
                (group_heading_level a) (group_title_case a) with
        | Raise e => Uncaught e
        | Ok list_md =>
            match read_text fs target with
            | Raise e => Uncaught e
            | Ok original =>
                match replace_between_markers original (marker_start a)
                        (marker_end a) list_md with
                | Raise (RuntimeError e) => Exit 3 [(Stderr, CROSS :: py " " ++ e)] fs
                | Raise e => Uncaught e
                | Ok (updated, changed) =>
                    if changed then
                      match write_text target updated now fs with
                      | None => Uncaught OSError
                      | Some fs' =>
                          Exit (if no_fail_on_change a then 0 else 1)
                            [(Stdout,
                              CYCLE :: py " Updated " ++ as_posix target
                              ++ py " between markers " ++ marker_start a
                              ++ py " " ++ [ELLIPSIS] ++ py " " ++ marker_end a)]
                            fs'
                      end
                    else Exit 0 [(Stdout, CHECK :: py " No changes needed")] fs
                end
            end
        end
    end.

(** ** Lines and headings, as the documentation describes them *)

(** The line that starts a text: everything before the first newline. *)
Fixpoint take_line (t : str) : str :=
  match t with
  | [] => []
  | c :: t' => if N.eqb c LF then [] else c :: take_line t'
  end.

(** A heading line is made of optional blanks, a [#], one blank and some
    more text; [heading_text] is that text. *)
Definition heading_text (line : str) : option str :=
  match lstrip_with blank line with
  | h :: w :: x :: rest_ =>
      if N.eqb h HASH && blank w then Some (x :: rest_) else None
  | _ => None
  end.

(** The text of the first heading line: [bol] says whether [t] starts a
    line. *)
Fixpoint scan_heading (bol : bool) (t : str) : option str :=
  match (if bol then heading_text (take_line t) else None) with
  | Some x => Some x
  | None =>
      match t with
      | [] => None
      | c :: t' => scan_heading (N.eqb c LF) t'
      end
  end.

Definition first_heading (text : str) : option str := scan_heading true text.

(** What follows the first line of a text: empty, or a newline and the
    remaining lines. *)
Definition drop_line (t : str) : str := skipn (length (take_line t)) t.

(** What [title_for] falls back on when no heading gives a title. *)
Definition fallback_title (stem_ : str) (text : str) : str :=
  match first_nonblank (splitlines text) with
  | Some t => t
  | None => stem_
  end.

(** The group key of a file, the empty key standing in where
    [group_key_for] raises. *)
Definition key_of (src_dir : path) (depth : Z) (f : path) : str :=
  match group_key_for f src_dir depth with
  | Ok k => k
  | Raise _ => []
  end.

(** ** Sample trees *)

(** A directory that holds the single file [a.md]. *)
Definition one_file (text : str) : node := Dir 0 [(py "a.md", File (Some text) 0)].

(** The tree of the exclusion test: [docs/adr/keep.md] and
    [docs/adr/archive/old.md]. *)
Definition adr : path := [py "docs"; py "adr"].

Definition under_adr (entries : list (str * node)) : node :=
  Dir 0 [(py "docs", Dir 0 [(py "adr", Dir 0 entries)])].

Definition keep_and_archive : node :=
  under_adr [(py "keep.md", File (Some (py "# Keep")) 0);
             (py "archive", Dir 0 [(py "old.md", File (Some (py "# Old")) 0)])].

(** [docs/adr/.foo/a.md] and [docs/adr/foo/b.md] *)
Definition hidden_and_plain : node :=
  under_adr [(py ".foo", Dir 0 [(py "a.md", File (Some (py "# A")) 0)]);
             (py "foo", Dir 0 [(py "b.md", File (Some (py "# B")) 0)])].

(** ** Shell patterns, as the documentation describes them

    In a shell pattern [?] and [*] stay inside one path segment and only
    [**] goes across segments.  Bracket expressions are left out: the
    patterns compared below have none. *)
Fixpoint shell_match (pat : str) (s : str) : bool :=
  match pat with
  | [] => match s with [] => true | _ :: _ => false end
  | c :: pat' =>
      if N.eqb c STAR then
        match pat' with
        | d :: pat'' =>
            if N.eqb d STAR then
              (fix across (s : str) : bool :=
                 shell_match pat'' s
                 || match s with [] => false | _ :: s' => across s' end) s
            else
              (fix within (s : str) : bool :=
                 shell_match pat' s
                 || match s with
                    | [] => false
                    | x :: s' => negb (N.eqb x SLASH) && within s'
                    end) s
        | [] => forallb (fun x => negb (N.eqb x SLASH)) s
        end
      else if N.eqb c QUESTION then
        match s with
        | x :: s' => negb (N.eqb x SLASH) && shell_match pat' s'
        | [] => false
        end
      else
        match s with
        | x :: s' => N.eqb c x && shell_match pat' s'
        | [] => false
        end
  end.

(** A text without the characters that are special in a pattern. *)
Definition plain (s : str) : bool :=
  forallb (fun c => negb (N.eqb c STAR || N.eqb c QUESTION || N.eqb c LBRACKET)) s.

(** The tree of the grouping test: [db/001.md], [api/002.md] and [003.md]
    under [docs/adr], and [README.md] beside [docs]. *)
Definition grouping_tree : node :=
  Dir 0 [(py "docs", Dir 0 [(py "adr", Dir 0
            [(py "db", Dir 0 [(py "001.md", File (Some (py "# DB Choice")) 0)]);
             (py "api", Dir 0 [(py "002.md", File (Some (py "# API Style")) 0)]);
             (py "003.md", File (Some (py "# Root ADR")) 0)])]);
         (py "README.md",
          File (Some (py "X\n<!--adrlist-->\nOLD\n<!--adrliststop-->\nY")) 0)].

Definition grouping_files : list path :=
  [adr ++ [py "db"; py "001.md"]; adr ++ [py "api"; py "002.md"];
   adr ++ [py "003.md"]].

(** The status a run returns, and whether it printed that nothing was to
    be done. *)
Definition status_of (o : outcome) : option Z :=
  match o with
  | Exit s _ _ => Some s
  | Uncaught _ => None
  end.

Definition tree_of (o : outcome) (fs : node) : node :=
  match o with
  | Exit _ _ fs' => fs'
  | Uncaught _ => fs
  end.

Definition no_changes_needed : list (stream * str) :=
  [(Stdout, CHECK :: py " No changes needed")].

Definition reports_no_change (o : outcome) : bool :=
  match o with
  | Exit _ [(Stdout, msg)] _ => str_eqb msg (CHECK :: py " No changes needed")
  | _ => false
  end.

(** Three trees on which a second run changes the target again. *)

(** The index lies inside the scanned directory and has its only heading
    between the markers. *)
Definition index_inside : node :=
  under_adr [(py "README.md",
              File (Some (py "<!--adrlist-->\n# Decisions\n<!--adrliststop-->\n")) 0);
             (py "001.md", File (Some (py "# First")) 0)].

Definition index_inside_args : args := {|
  src_dir := py "docs/adr";
  target_file := py "docs/adr/README.md";
  marker_start := py "<!--adrlist-->";
  marker_end := py "<!--adrliststop-->";
  exclude := [];
  extensions := py "md,MD";
  sort := SortName;
  no_fail_on_change := false;
  group_by := GroupNone;
  group_depth := 1;
  group_heading_level := 2;
  group_title_case := CaseTitle
|}.

Definition empty_index : node :=
  File (Some (py "<!--adrlist-->\n<!--adrliststop-->\n")) 0.

(** A document whose title holds the end marker. *)
Definition title_with_marker : node :=
  Dir 0 [(py "docs", Dir 0 [(py "adr", Dir 0
            [(py "001.md", File (Some (py "# About <!--adrliststop-->")) 0)])]);
         (py "README.md", empty_index)].

(** A blank document whose name holds a carriage return. *)
Definition name_with_cr : node :=
  Dir 0 [(py "docs", Dir 0 [(py "adr", Dir 0
            [(py "a\rb.md", File (Some []) 0)])]);
         (py "README.md", empty_index)].

(** The same run with [--no-fail-on-change]. *)
Definition quiet (a : args) : args := {|
  src_dir := src_dir a;
  target_file := target_file a;
  marker_start := marker_start a;
  marker_end := marker_end a;
  exclude := exclude a;
  extensions := extensions a;
  sort := sort a;
  no_fail_on_change := true;
  group_by := group_by a;
  group_depth := group_depth a;
  group_heading_level := group_heading_level a;
  group_title_case := group_title_case a
|}.

(** A README without markers. *)
Definition no_markers : node :=
  Dir 0 [(py "docs", Dir 0 [(py "adr", Dir 0 [])]);
         (py "README.md", File (Some (py "# Project\n")) 0)].

(** ** Link text, as markdown needs it *)

(** Every square bracket gets a backslash before it. *)
Definition escape_brackets (title : str) : str :=
  flat_map
    (fun c => if N.eqb c LBRACKET || N.eqb c RBRACKET then [BACKSLASH; c] else [c])
    title.

(** Equality of sort keys. *)
Definition key_eqb (a b : key) : bool :=
  match a, b with
  | KStr s, KStr s' => str_eqb s s'
  | KTime t s, KTime t' s' => (t =? t')%Z && str_eqb s s'
  | _, _ => false
  end.

(** The keys that [sort_key] returns in one sort mode. *)
Definition key_of_mode (mode : sort_mode) (k : key) : Prop :=
  match mode, k with
  | SortMtime, KTime _ _ => True
  | SortPath, KStr _ => True
  | SortName, KStr _ => True
  | _, _ => False
  end.

(** A path segment that is a file or directory name: not empty, not [.]
    or [..], and without a slash. *)
Definition proper_segment (seg : str) : Prop :=
  seg <> [] /\ seg <> py "." /\ seg <> py ".." /\ ~ In SLASH seg.

(** * Properties *)

(** ** Text *)

Lemma str_eqb_spec (a b : str) : reflect (a = b) (str_eqb a b).
Proof.
  revert b; induction a as [|x a IH]; intros [|y b]; simpl;
    try (constructor; congruence).
  destruct (N.eqb_spec x y) as [->|Hxy]; simpl.
  - destruct (IH b) as [->|Hab]; constructor; congruence.
  - constructor; congruence.
Qed.

Lemma str_eqb_eq (a b : str) : str_eqb a b = true <-> a = b.
Proof. destruct (str_eqb_spec a b); split; congruence. Qed.

Lemma str_eqb_refl (a : str) : str_eqb a a = true.
Proof. apply str_eqb_eq; reflexivity. Qed.

Lemma str_eqb_neq (a b : str) : str_eqb a b = false <-> a <> b.
Proof. destruct (str_eqb_spec a b); split; congruence. Qed.

Example replace_test :
  replace_between_markers
    (py "header\n<!--adrlist-->\nOLD\n<!--adrliststop-->\nfooter\n")
    (py "<!--adrlist-->") (py "<!--adrliststop-->") (py "NEW\n")
  = Ok (py "header\n<!--adrlist-->\nNEW\n<!--adrliststop-->\nfooter\n", true).
Proof. vm_compute. reflexivity. Qed.

(** ** Occurrences of a literal *)

Lemma starts_with_app (p r : str) : starts_with p (p ++ r) = true.
Proof. induction p as [|x p IH]; simpl; [reflexivity|]. now rewrite N.eqb_refl. Qed.

Lemma starts_with_inv (p s : str) :
  starts_with p s = true -> s = p ++ skipn (length p) s.
Proof.
  revert s; induction p as [|x p IH]; intros [|y s]; simpl; try easy.
  intros H; apply andb_prop in H as [Hxy Hps].
  apply N.eqb_eq in Hxy; subst y. f_equal. now apply IH.
Qed.

Lemma starts_with_iff (p s : str) :
  starts_with p s = true <-> exists r, s = p ++ r.
Proof.
  split.
  - intros H; eexists; now apply starts_with_inv.
  - intros [r ->]; apply starts_with_app.
Qed.

Lemma skipn_length_app (A : Type) (a b : list A) : skipn (length a) (a ++ b) = b.
Proof. induction a; simpl; auto. Qed.

Lemma firstn_length_app (A : Type) (a b : list A) : firstn (length a) (a ++ b) = a.
Proof. induction a; simpl; [reflexivity|]. now f_equal. Qed.

Lemma eat_starts (s : str) (c : cursor) :
  eat s c =
  if starts_with s (rest c)
  then Some (Cursor (pos c + length s) (last_of (last c) s)
                    (skipn (length s) (rest c)))
  else None.
Proof.
  revert c; induction s as [|x s IH]; intros [p l r]; simpl.
  - now rewrite Nat.add_0_r.
  - destruct r as [|y r]; [reflexivity|].
    destruct (N.eqb_spec x y) as [->|Hxy]; simpl; [|reflexivity].
    rewrite IH; simpl. now rewrite Nat.add_succ_r.
Qed.

Lemma find_Some (b r : str) (n : nat) :
  find b r = Some n ->
  exists mid post,
    r = mid ++ b ++ post /\ length mid = n
    /\ forall m q, r = m ++ b ++ q -> n <= length m.
Proof.
  revert n; induction r as [|x r IH]; intros n; simpl.
  - destruct (starts_with b []) eqn:Hb; [|discriminate].
    intros [= <-]. exists [], []. split; [|split; [reflexivity|intros; lia]].
    apply starts_with_inv in Hb. simpl in *. rewrite Hb at 1.
    destruct b; reflexivity.
  - destruct (starts_with b (x :: r)) eqn:Hb.
    + intros [= <-]. exists [], (skipn (length b) (x :: r)).
      split; [now apply starts_with_inv|]. split; [reflexivity|intros; lia].
    + destruct (find b r) as [k|] eqn:Hf; [|discriminate].
      simpl. intros [= <-].
      destruct (IH k eq_refl) as (mid & post & -> & Hlen & Hmin).
      exists (x :: mid), post. split; [reflexivity|].
      split; [simpl; now rewrite Hlen|].
      intros [|y m] q Hq.
      * simpl in Hq. rewrite Hq, starts_with_app in Hb. discriminate.
      * simpl in Hq. injection Hq as _ Hq. simpl.
        apply Hmin in Hq. lia.
Qed.

Lemma find_None (b r : str) :
  find b r = None -> forall m q, r <> m ++ b ++ q.
Proof.
  induction r as [|x r IH]; simpl.
  - destruct (starts_with b []) eqn:Hb; [discriminate|].
    intros _ [|y m] q Hq; [|discriminate].
    simpl in Hq. rewrite Hq, starts_with_app in Hb. discriminate.
  - destruct (starts_with b (x :: r)) eqn:Hb; [discriminate|].
    destruct (find b r) eqn:Hf; [discriminate|].
    intros _ [|y m] q Hq.
    + simpl in Hq. rewrite Hq, starts_with_app in Hb. discriminate.
    + simpl in Hq. injection Hq as _ Hq. now apply (IH eq_refl m q).
Qed.

(** ** The marker pattern at one position *)

Lemma lazy_any_then_end (b : str) (g : caps) (p : nat) (l : option N) (r : str) :
  first_some (fun c' => run [GClose 2; Lit b] c' g) (cuts_from any_chr p l r) =
  match find b r with
  | Some n => Some (p + n + length b, close_group 2 (p + n) g)
  | None => None
  end.
Proof.
  revert p l; induction r as [|x r IH]; intros p l.
  - simpl. rewrite eat_starts. simpl.
    destruct (starts_with b []); [|reflexivity].
    simpl. now rewrite Nat.add_0_r.
  - cbn [cuts_from any_chr first_some].
    cbn [run]. rewrite eat_starts. cbn [rest pos find].
    destruct (starts_with b (x :: r)).
    + cbn [run pos]. now rewrite Nat.add_0_r.
    + rewrite IH. destruct (find b r) as [n|]; simpl; [|reflexivity].
      do 2 f_equal; [lia|]. f_equal. lia.
Qed.

Lemma run_marker_unfold (a b : str) (c : cursor) :
  run (marker_pattern a b) c no_caps =
  match eat a c with
  | Some c1 =>
      first_some
        (fun c' => run [GClose 2; Lit b] c'
                     (open_group 2 (pos c1)
                        (close_group 1 (pos c1) (open_group 1 (pos c) no_caps))))
        (cuts any_chr c1)
  | None => None
  end.
Proof. reflexivity. Qed.

Lemma try_at_marker (a b : str) (c : cursor) :
  match try_at (marker_pattern a b) c with
  | Some m =>
      starts_with a (rest c) = true
      /\ exists n, find b (skipn (length a) (rest c)) = Some n
                   /\ m_start m = pos c
                   /\ group_start m 1 = pos c
                   /\ m_end m = pos c + length a + n + length b
  | None =>
      starts_with a (rest c) = false
      \/ find b (skipn (length a) (rest c)) = None
  end.
Proof.
  unfold try_at. rewrite run_marker_unfold, eat_starts.
  destruct (starts_with a (rest c)) eqn:Ha; [|now left].
  unfold cuts. cbn [pos last rest]. rewrite lazy_any_then_end.
  destruct (find b _) as [n|] eqn:Hf; [|now right].
  split; [reflexivity|]. exists n. repeat split; reflexivity.
Qed.

Lemma search_marker_sound (a b : str) (t : str) (p : nat) (l : option N) (m : rmatch) :
  search_from (marker_pattern a b) p l t = Some m ->
  exists pre mid post,
    t = pre ++ a ++ mid ++ b ++ post
    /\ group_start m 1 = p + length pre
    /\ m_end m = p + length pre + length a + length mid + length b
    /\ (forall p' m' q', t = p' ++ a ++ m' ++ b ++ q' -> length pre <= length p')
    /\ (forall m' q', mid ++ b ++ post = m' ++ b ++ q' -> length mid <= length m').
Proof.
  revert p l; induction t as [|x t IH]; intros p l; cbn [search_from].
  - pose proof (try_at_marker a b (Cursor p l [])) as H.
    destruct (try_at _ _) as [m0|]; [|discriminate].
    intros [= ->]. cbn [rest pos] in H.
    destruct H as (Ha & n & Hf & _ & Hg & He).
    apply starts_with_inv in Ha.
    apply find_Some in Hf as (mid & post & Hr & Hlen & Hmin).
    exists [], mid, post. simpl. rewrite Ha at 1. rewrite Hr.
    split; [reflexivity|]. split; [lia|]. split; [lia|].
    split; [intros; lia|]. intros m' q' Hq. rewrite <- Hr in Hq.
    apply Hmin in Hq. lia.
  - pose proof (try_at_marker a b (Cursor p l (x :: t))) as H.
    destruct (try_at _ _) as [m0|].
    + intros [= ->]. cbn [rest pos] in H.
      destruct H as (Ha & n & Hf & _ & Hg & He).
      apply starts_with_inv in Ha.
      apply find_Some in Hf as (mid & post & Hr & Hlen & Hmin).
      exists [], mid, post. simpl. rewrite Ha at 1. rewrite Hr.
      split; [reflexivity|]. split; [lia|]. split; [lia|].
      split; [intros; lia|]. intros m' q' Hq. rewrite <- Hr in Hq.
      apply Hmin in Hq. lia.
    + intros Hs. apply IH in Hs as (pre & mid & post & -> & Hg & He & Hp & Hm).
      exists (x :: pre), mid, post. simpl.
      split; [reflexivity|]. split; [lia|]. split; [lia|]. split; [|exact Hm].
      intros [|y p'] m' q' Hq.
      * exfalso. simpl in Hq. cbn [rest] in H. destruct H as [H|H].
        -- rewrite Hq, starts_with_app in H. discriminate.
        -- rewrite Hq, skipn_length_app in H. exact (find_None _ _ H m' q' eq_refl).
      * simpl in Hq. injection Hq as _ Hq. apply Hp in Hq. simpl. lia.
Qed.

Lemma search_marker_complete (a b : str) (p0 m0 q0 : str) (p : nat) (l : option N) :
  search_from (marker_pattern a b) p l (p0 ++ a ++ m0 ++ b ++ q0) <> None.
Proof.
  revert p l; induction p0 as [|x p0 IH]; intros p l.
  - simpl app. 
    assert (Ht : try_at (marker_pattern a b) (Cursor p l (a ++ m0 ++ b ++ q0)) <> None).
    { pose proof (try_at_marker a b (Cursor p l (a ++ m0 ++ b ++ q0))) as H.
      destruct (try_at _ _); [discriminate|]. cbn [rest] in H.
      destruct H as [H|H].
      - now rewrite starts_with_app in H.
      - rewrite skipn_length_app in H. exfalso. exact (find_None _ _ H m0 q0 eq_refl). }
    destruct (a ++ m0 ++ b ++ q0); cbn [search_from];
      destruct (try_at _ _); congruence.
  - simpl app. cbn [search_from]. destruct (try_at _ _); [discriminate|]. apply IH.
Qed.

(** ** Marker substitution *)

Lemma replace_between_markers_found (content start end_ replacement : str) (m : rmatch) :
  search (marker_pattern start end_) content = Some m ->
  exists pre mid post,
    content = pre ++ start ++ mid ++ end_ ++ post
    /\ (forall p m' q, content = p ++ start ++ m' ++ end_ ++ q ->
        length pre <= length p)
    /\ (forall m' q, mid ++ end_ ++ post = m' ++ end_ ++ q ->
        length mid <= length m')
    /\ replace_between_markers content start end_ replacement =
       Ok (pre ++ start ++ [LF] ++ replacement ++ end_ ++ post,
           negb (str_eqb (pre ++ start ++ [LF] ++ replacement ++ end_ ++ post)
                   content)).
Proof.
  intros Hs. unfold replace_between_markers. rewrite Hs.
  apply search_marker_sound in Hs
    as (pre & mid & post & Hc & Hg & He & Hp & Hm).
  exists pre, mid, post. repeat split; try assumption.
  rewrite Hg, He. simpl plus.
  assert (Hb : firstn (length pre) content = pre)
    by (rewrite Hc; apply firstn_length_app).
  assert (Ha : skipn (length pre + length start + length mid + length end_) content
               = post).
  { rewrite Hc.
    replace (pre ++ start ++ mid ++ end_ ++ post)
      with ((pre ++ start ++ mid ++ end_) ++ post)
      by (now rewrite <- !app_assoc).
    replace (length pre + length start + length mid + length end_)
      with (length (pre ++ start ++ mid ++ end_))
      by (rewrite !length_app; lia).
    apply skipn_length_app. }
  now rewrite Hb, Ha.
Qed.

(** C1.  When the content holds the start marker with the end marker
    somewhere after it, [replace_between_markers] returns the text before
    the first such start marker, the start marker, a newline, the
    replacement, the end marker and the text after the nearest end marker;
    the flag it returns is true exactly when that text differs from the
    content. *)
Theorem replace_between_markers_rebuilds (content start end_ replacement : str) :
  (exists p m q, content = p ++ start ++ m ++ end_ ++ q) ->
  exists pre mid post new changed,
    content = pre ++ start ++ mid ++ end_ ++ post
    /\ (forall p m q, content = p ++ start ++ m ++ end_ ++ q ->
        length pre <= length p)
    /\ (forall m q, mid ++ end_ ++ post = m ++ end_ ++ q ->
        length mid <= length m)
    /\ replace_between_markers content start end_ replacement = Ok (new, changed)
    /\ new = pre ++ start ++ [LF] ++ replacement ++ end_ ++ post
    /\ (changed = true <-> new <> content).
Proof.
  intros (p0 & m0 & q0 & Hc).
  destruct (search (marker_pattern start end_) content) as [m|] eqn:Hs.
  - destruct (replace_between_markers_found content start end_ replacement m Hs)
      as (pre & mid & post & Hd & Hp & Hm & Hr).
    exists pre, mid, post, (pre ++ start ++ [LF] ++ replacement ++ end_ ++ post),
      (negb (str_eqb (pre ++ start ++ [LF] ++ replacement ++ end_ ++ post) content)).
    split; [exact Hd|]. split; [exact Hp|]. split; [exact Hm|].
    split; [exact Hr|]. split; [reflexivity|].
    rewrite negb_true_iff. apply str_eqb_neq.
  - exfalso. unfold search in Hs. rewrite Hc in Hs.
    now apply search_marker_complete in Hs.
Qed.

Lemma replace_between_markers_rebuilds_witness :
  exists pre mid post new changed,
    py "a<!--s-->old<!--e-->b" = pre ++ py "<!--s-->" ++ mid ++ py "<!--e-->" ++ post
    /\ (forall p m q,
        py "a<!--s-->old<!--e-->b" = p ++ py "<!--s-->" ++ m ++ py "<!--e-->" ++ q ->
        length pre <= length p)
    /\ (forall m q, mid ++ py "<!--e-->" ++ post = m ++ py "<!--e-->" ++ q ->
        length mid <= length m)
    /\ replace_between_markers (py "a<!--s-->old<!--e-->b") (py "<!--s-->")
         (py "<!--e-->") (py "new") = Ok (new, changed)
    /\ new = pre ++ py "<!--s-->" ++ [LF] ++ py "new" ++ py "<!--e-->" ++ post
    /\ (changed = true <-> new <> py "a<!--s-->old<!--e-->b").
Proof.
  apply (replace_between_markers_rebuilds (py "a<!--s-->old<!--e-->b")
           (py "<!--s-->") (py "<!--e-->") (py "new")).
  exists (py "a"), (py "old"), (py "b"). reflexivity.
Defined.

(** ** The matcher *)

Lemma run_nil c g : run [] c g = Some (pos c, g).
Proof. reflexivity. Qed.

Lemma run_lit s r c g :
  run (Lit s :: r) c g = match eat s c with Some c' => run r c' g | None => None end.
Proof. reflexivity. Qed.

Lemma run_rep greedy least cls r c g :
  run (Rep greedy least cls :: r) c g =
  first_some (fun c' => run r c' g)
    (if greedy then rev (skipn least (cuts cls c)) else skipn least (cuts cls c)).
Proof. reflexivity. Qed.

Lemma run_bol r c g : run (Bol :: r) c g = if at_bol c then run r c g else None.
Proof. reflexivity. Qed.

Lemma run_eol r c g : run (Eol :: r) c g = if at_eol c then run r c g else None.
Proof. reflexivity. Qed.

Lemma run_open n r c g : run (GOpen n :: r) c g = run r c (open_group n (pos c) g).
Proof. reflexivity. Qed.

Lemma run_close n r c g : run (GClose n :: r) c g = run r c (close_group n (pos c) g).
Proof. reflexivity. Qed.

Lemma first_some_Some {A B : Type} (f : A -> option B) (l : list A) (y : B) :
  first_some f l = Some y -> exists x, In x l /\ f x = Some y.
Proof.
  induction l as [|x l IH]; simpl; [discriminate|].
  destruct (f x) as [z|] eqn:Hx.
  - intros [= <-]. exists x. auto.
  - intros H. destruct (IH H) as (x' & Hin & Hf). exists x'. auto.
Qed.

Lemma first_some_None {A B : Type} (f : A -> option B) (l : list A) :
  first_some f l = None -> forall x, In x l -> f x = None.
Proof.
  induction l as [|x l IH]; simpl; [contradiction|].
  destruct (f x) eqn:Hx; [discriminate|].
  intros H x' [<-|Hin]; auto.
Qed.

Lemma in_cuts_from cls p l r c' :
  In c' (cuts_from cls p l r) <->
  exists a, r = a ++ rest c' /\ forallb cls a = true
            /\ pos c' = p + length a /\ last c' = last_of l a.
Proof.
  revert p l; induction r as [|x r IH]; intros p l.
  - simpl. split.
    + intros [<-|[]]. exists []. simpl. repeat split; lia.
    + intros (a & Ha & _ & Hp & Hl). destruct a; [|discriminate].
      simpl in *. left. destruct c' as [p' l' r']; simpl in *.
      subst. f_equal; lia.
  - cbn [cuts_from]. split.
    + intros [<-|Hin].
      * exists []. simpl. repeat split; lia.
      * destruct (cls x) eqn:Hx; [|contradiction].
        apply IH in Hin as (a & -> & Ha & Hp & Hl).
        exists (x :: a). simpl. rewrite Hx, Ha. repeat split; auto; lia.
    + intros ([|y a] & Ha & Hc & Hp & Hl).
      * left. destruct c' as [p' l' r']; simpl in *. subst. f_equal; lia.
      * right. simpl in Ha, Hc. injection Ha as <- ->.
        apply andb_prop in Hc as [Hx Hc]. rewrite Hx.
        apply IH. exists a. simpl in Hp, Hl. repeat split; auto; lia.
Qed.

Lemma in_cuts_skip1 cls p l r c' :
  In c' (skipn 1 (cuts_from cls p l r)) <->
  exists x a, r = x :: a ++ rest c' /\ cls x = true /\ forallb cls a = true
              /\ pos c' = p + S (length a) /\ last c' = last_of l (x :: a).
Proof.
  destruct r as [|x r]; cbn [cuts_from skipn].
  - split; [contradiction|]. intros (x & a & H & _). discriminate.
  - split.
    + destruct (cls x) eqn:Hx; [|contradiction].
      intros Hin. apply in_cuts_from in Hin as (a & -> & Ha & Hp & Hl).
      exists x, a. repeat split; auto; lia.
    + intros (y & a & Hr & Hy & Ha & Hp & Hl). injection Hr as <- ->.
      rewrite Hy. apply in_cuts_from. exists a. repeat split; auto; lia.
Qed.

(** ** The heading pattern at one position *)

Lemma run_h1_sound c g e g' :
  run H1_REGEX c g = Some (e, g') ->
  at_bol c = true /\
  exists ind sep G ws tl,
    rest c = ind ++ [HASH] ++ sep ++ G ++ ws ++ tl
    /\ forallb blank ind = true
    /\ forallb blank sep = true /\ sep <> []
    /\ forallb not_newline G = true /\ G <> []
    /\ forallb isspace ws = true
    /\ line_ends tl = true
    /\ span g' 1 = Some (pos c + length ind + 1 + length sep,
                         pos c + length ind + 1 + length sep + length G).
Proof.
  unfold H1_REGEX. rewrite run_bol.
  destruct (at_bol c) eqn:Hbol; [|discriminate].
  rewrite run_rep. intros H.
  apply first_some_Some in H as (c1 & Hin1 & H).
  apply in_rev in Hin1. cbn [skipn] in Hin1. unfold cuts in Hin1.
  apply in_cuts_from in Hin1 as (ind & Hr1 & Hind & Hp1 & _).
  rewrite run_lit, eat_starts in H.
  destruct (starts_with [HASH] (rest c1)) eqn:Hh; [|discriminate].
  apply starts_with_inv in Hh. cbn [length skipn app] in Hh.
  rewrite run_rep in H.
  apply first_some_Some in H as (c3 & Hin3 & H).
  apply in_rev in Hin3. unfold cuts in Hin3. cbn [pos last rest] in Hin3.
  apply in_cuts_skip1 in Hin3 as (x & a & Hr3 & Hx & Ha & Hp3 & _).
  rewrite run_open, run_rep in H.
  apply first_some_Some in H as (c4 & Hin4 & H).
  unfold cuts in Hin4.
  apply in_cuts_skip1 in Hin4 as (y & b & Hr4 & Hy & Hb & Hp4 & _).
  rewrite run_close, run_rep in H.
  apply first_some_Some in H as (c5 & Hin5 & H).
  apply in_rev in Hin5. cbn [skipn] in Hin5. unfold cuts in Hin5.
  apply in_cuts_from in Hin5 as (ws & Hr5 & Hws & _ & _).
  rewrite run_eol in H. destruct (at_eol c5) eqn:Heol; [|discriminate].
  rewrite run_nil in H. injection H as <- <-.
  split; [reflexivity|].
  exists ind, (x :: a), (y :: b), ws, (rest c5).
  split.
  { destruct (rest c1) as [|h r1]; [discriminate|].
    injection Hh as ->. cbn [skipn length] in Hr3.
    rewrite Hr1. cbn [app]. rewrite Hr3, Hr4, Hr5. reflexivity. }
  split; [exact Hind|].
  split; [simpl; now rewrite Hx, Ha|]. split; [discriminate|].
  split; [simpl; now rewrite Hy, Hb|]. split; [discriminate|].
  split; [exact Hws|]. split; [exact Heol|].
  cbn [span close_group open_group opened Nat.eqb]. f_equal. f_equal.
  - rewrite Hp3, Hp1. simpl. lia.
  - rewrite Hp4, Hp3, Hp1. simpl. lia.
Qed.

Lemma first_some_not_None {A B : Type} (f : A -> option B) (l : list A) (x : A) :
  In x l -> f x <> None -> first_some f l <> None.
Proof.
  intros Hin Hx H. apply Hx. now apply (first_some_None f l H).
Qed.

Lemma run_h1_complete c g ind w X tl :
  at_bol c = true ->
  rest c = ind ++ HASH :: w :: X ++ tl ->
  forallb blank ind = true -> blank w = true ->
  X <> [] -> forallb not_newline X = true ->
  line_ends tl = true ->
  run H1_REGEX c g <> None.
Proof.
  intros Hbol Hr Hind Hw HX Hnl Htl.
  unfold H1_REGEX. rewrite run_bol, Hbol, run_rep.
  apply first_some_not_None
    with (x := Cursor (pos c + length ind) (last_of (last c) ind)
                 (HASH :: w :: X ++ tl)).
  { apply in_rev. rewrite rev_involutive. cbn [skipn]. apply in_cuts_from.
    exists ind. cbn [pos last rest]. auto. }
  rewrite run_lit, eat_starts. cbn [rest starts_with]. rewrite N.eqb_refl.
  cbn [andb pos last length skipn]. rewrite run_rep.
  apply first_some_not_None
    with (x := Cursor (pos c + length ind + 1 + 1) (Some w) (X ++ tl)).
  { apply in_rev. rewrite rev_involutive. apply in_cuts_skip1.
    exists w, []. cbn [pos last rest app length forallb last_of].
    repeat split; auto. }
  rewrite run_open, run_rep.
  destruct X as [|y b]; [congruence|].
  cbn [forallb] in Hnl. apply andb_prop in Hnl as [Hy Hb].
  apply first_some_not_None
    with (x := Cursor (pos c + length ind + 1 + 1 + S (length b))
                 (last_of (Some w) (y :: b)) tl).
  { apply in_cuts_skip1. exists y, b. cbn [pos last rest]. repeat split; auto. }
  rewrite run_close, run_rep.
  apply first_some_not_None
    with (x := Cursor (pos c + length ind + 1 + 1 + S (length b))
                 (last_of (Some w) (y :: b)) tl).
  { apply in_rev. rewrite rev_involutive. cbn [skipn]. apply in_cuts_from.
    exists []. cbn [pos last rest app length forallb last_of].
    repeat split; auto. }
  rewrite run_eol. unfold at_eol. cbn [rest]. rewrite Htl, run_nil. discriminate.
Qed.

(** ** Lines, blanks and trimming *)

Lemma blank_isspace c : blank c = true -> isspace c = true.
Proof.
  unfold blank, SP, TAB. intros H. apply orb_prop in H as [H|H];
    apply N.eqb_eq in H; subst; reflexivity.
Qed.

Lemma blank_not_newline c : blank c = true -> not_newline c = true.
Proof.
  unfold blank, SP, TAB. intros H. apply orb_prop in H as [H|H];
    apply N.eqb_eq in H; subst; reflexivity.
Qed.

Lemma forallb_impl (p q : N -> bool) (s : str) :
  (forall c, p c = true -> q c = true) ->
  forallb p s = true -> forallb q s = true.
Proof.
  intros Hpq. induction s as [|c s IH]; simpl; [reflexivity|].
  intros H. apply andb_prop in H as [Hc Hs]. now rewrite (Hpq c Hc), IH.
Qed.

Lemma take_line_app (a t : str) :
  forallb not_newline a = true -> take_line (a ++ t) = a ++ take_line t.
Proof.
  induction a as [|c a IH]; simpl; [reflexivity|].
  unfold not_newline at 1. intros H. apply andb_prop in H as [Hc Ha].
  apply negb_true_iff in Hc. rewrite Hc. now rewrite IH.
Qed.

Lemma take_line_ends (t : str) : line_ends t = true -> take_line t = [].
Proof. destruct t as [|c t]; simpl; [reflexivity|]. now intros ->. Qed.

Lemma take_line_not_newline (t : str) : forallb not_newline (take_line t) = true.
Proof.
  induction t as [|c t IH]; simpl; [reflexivity|].
  destruct (N.eqb c LF) eqn:Hc; simpl; [reflexivity|].
  unfold not_newline at 1. now rewrite Hc.
Qed.

Lemma take_line_split (t : str) :
  exists tl, t = take_line t ++ tl /\ line_ends tl = true.
Proof.
  induction t as [|c t (tl & Ht & Hl)]; simpl.
  - exists []. auto.
  - destruct (N.eqb c LF) eqn:Hc.
    + exists (c :: t). simpl. auto.
    + exists tl. simpl. split; [now f_equal|exact Hl].
Qed.

Lemma take_line_spaces (ws tl : str) :
  forallb isspace ws = true -> line_ends tl = true ->
  forallb isspace (take_line (ws ++ tl)) = true.
Proof.
  intros Hws Htl. induction ws as [|c ws IH]; simpl.
  - now rewrite take_line_ends.
  - simpl in Hws. apply andb_prop in Hws as [Hc Hws].
    destruct (N.eqb c LF); simpl; [reflexivity|]. now rewrite Hc, IH.
Qed.

Lemma lstrip_with_app_all (p : N -> bool) (a s : str) :
  forallb p a = true -> lstrip_with p (a ++ s) = lstrip_with p s.
Proof.
  induction a as [|c a IH]; simpl; [reflexivity|].
  intros H. apply andb_prop in H as [Hc Ha]. now rewrite Hc, IH.
Qed.

Lemma lstrip_with_nil (p : N -> bool) (a : str) :
  forallb p a = true -> lstrip_with p a = [].
Proof.
  intros H. rewrite <- (app_nil_r a). now rewrite lstrip_with_app_all.
Qed.

Lemma lstrip_with_keep (p : N -> bool) (s b : str) :
  lstrip_with p s <> [] -> lstrip_with p (s ++ b) = lstrip_with p s ++ b.
Proof.
  induction s as [|c s IH]; simpl; [congruence|].
  destruct (p c); [exact IH|reflexivity].
Qed.

Lemma lstrip_with_split (p : N -> bool) (s : str) :
  exists a, s = a ++ lstrip_with p s /\ forallb p a = true.
Proof.
  induction s as [|c s (a & Hs & Ha)]; simpl.
  - exists []. auto.
  - destruct (p c) eqn:Hc.
    + exists (c :: a). simpl. rewrite Hc. split; [now f_equal|exact Ha].
    + exists []. auto.
Qed.

Lemma rstrip_with_app_all (p : N -> bool) (s b : str) :
  forallb p b = true -> rstrip_with p (s ++ b) = rstrip_with p s.
Proof.
  intros Hb. unfold rstrip_with. rewrite rev_app_distr.
  rewrite lstrip_with_app_all; [reflexivity|].
  rewrite forallb_forall in *. intros c Hc. apply Hb. now apply in_rev.
Qed.

Lemma strip_pad (a s b : str) :
  forallb isspace a = true -> forallb isspace b = true ->
  strip (a ++ s ++ b) = strip s.
Proof.
  intros Ha Hb. unfold strip. rewrite lstrip_with_app_all by exact Ha.
  destruct (lstrip_with isspace s) as [|c u] eqn:Hs.
  - assert (Hall : forallb isspace (s ++ b) = true).
    { rewrite forallb_app, Hb, andb_true_r.
      destruct (lstrip_with_split isspace s) as (a' & Hs' & Ha').
      rewrite Hs, app_nil_r in Hs'. now rewrite Hs'. }
    now rewrite (lstrip_with_nil _ _ Hall).
  - rewrite lstrip_with_keep by (rewrite Hs; discriminate).
    rewrite Hs. now apply rstrip_with_app_all.
Qed.

Lemma strip_all_space (s : str) : forallb isspace s = true -> strip s = [].
Proof. intros H. unfold strip. now rewrite lstrip_with_nil. Qed.

(** ** Heading lines *)

Lemma heading_text_intro (ind : str) (w : N) (X : str) :
  forallb blank ind = true -> blank w = true -> X <> [] ->
  heading_text (ind ++ HASH :: w :: X) = Some X.
Proof.
  intros Hind Hw HX. unfold heading_text.
  rewrite lstrip_with_app_all by exact Hind.
  cbn [lstrip_with]. change (blank HASH) with false. cbn iota.
  destruct X as [|x X]; [congruence|].
  now rewrite N.eqb_refl, Hw.
Qed.

Lemma heading_text_inv (line X : str) :
  heading_text line = Some X ->
  exists ind w, line = ind ++ HASH :: w :: X
                /\ forallb blank ind = true /\ blank w = true /\ X <> [].
Proof.
  unfold heading_text. intros H.
  destruct (lstrip_with_split blank line) as (ind & Hl & Hind).
  destruct (lstrip_with blank line) as [|h [|w [|x r]]]; try discriminate.
  destruct (N.eqb_spec h HASH) as [->|]; [|discriminate].
  destruct (blank w) eqn:Hw; [|discriminate].
  injection H as <-. exists ind, w. repeat split; auto. discriminate.
Qed.

Lemma slice_app (u G v : str) :
  slice (u ++ G ++ v) (length u) (length u + length G) = G.
Proof.
  unfold slice. rewrite skipn_length_app.
  replace (length u + length G - length u) with (length G) by lia.
  apply firstn_length_app.
Qed.

Lemma try_h1_spec (c : cursor) (done : str) :
  pos c = length done ->
  match try_at H1_REGEX c with
  | Some m =>
      at_bol c = true
      /\ exists X, heading_text (take_line (rest c)) = Some X
                   /\ strip (group (done ++ rest c) m 1) = strip X
  | None => at_bol c = false \/ heading_text (take_line (rest c)) = None
  end.
Proof.
  intros Hpos. unfold try_at.
  destruct (run H1_REGEX c no_caps) as [[e g']|] eqn:Hrun.
  - apply run_h1_sound in Hrun
      as (Hbol & ind & sep & G & ws & tl & Hr & Hind & Hsep & Hne & HG & HGne
          & Hws & Htl & Hspan).
    split; [exact Hbol|].
    destruct sep as [|w sep]; [congruence|].
    cbn [forallb] in Hsep. apply andb_prop in Hsep as [Hw Hsep].
    exists (sep ++ G ++ take_line (ws ++ tl)). split.
    + rewrite Hr. rewrite take_line_app
        by (eapply forallb_impl; [apply blank_not_newline|exact Hind]).
      cbn [app]. cbn [take_line]. change (N.eqb HASH LF) with false. cbn iota.
      assert (Hwn : N.eqb w LF = false)
        by (apply blank_not_newline in Hw; now apply negb_true_iff in Hw).
      rewrite Hwn.
      rewrite take_line_app
        by (eapply forallb_impl; [apply blank_not_newline|exact Hsep]).
      rewrite take_line_app by exact HG.
      apply heading_text_intro; auto.
      destruct sep; [destruct G; [congruence|discriminate]|discriminate].
    + unfold group. cbn [m_caps]. rewrite Hspan.
      rewrite strip_pad.
      2:{ eapply forallb_impl; [apply blank_isspace|exact Hsep]. }
      2:{ now apply take_line_spaces. }
      f_equal. rewrite Hr, Hpos.
      replace (done ++ ind ++ [HASH] ++ (w :: sep) ++ G ++ ws ++ tl)
        with ((done ++ ind ++ [HASH] ++ (w :: sep)) ++ G ++ ws ++ tl)
        by (now rewrite <- !app_assoc).
      replace (length done + length ind + 1 + length (w :: sep))
        with (length (done ++ ind ++ [HASH] ++ w :: sep))
        by (rewrite !length_app; simpl; lia).
      apply slice_app.
  - destruct (at_bol c) eqn:Hbol; [|now left]. right.
    destruct (heading_text (take_line (rest c))) as [X|] eqn:Hh; [|reflexivity].
    exfalso.
    apply heading_text_inv in Hh as (ind & w & Hl & Hind & Hw & HX).
    destruct (take_line_split (rest c)) as (tl & Hr & Htl).
    pose proof (take_line_not_newline (rest c)) as Hnl.
    rewrite Hl in Hnl, Hr.
    rewrite forallb_app in Hnl. apply andb_prop in Hnl as [_ Hnl].
    cbn [forallb] in Hnl. apply andb_prop in Hnl as [_ Hnl].
    apply andb_prop in Hnl as [_ Hnl].
    rewrite <- app_assoc in Hr. cbn [app] in Hr.
    now apply (run_h1_complete c no_caps ind w X tl Hbol Hr Hind Hw HX Hnl Htl).
Qed.

Lemma search_h1_scan (t done : str) (l : option N) :
  match search_from H1_REGEX (length done) l t with
  | Some m =>
      exists X, scan_heading (line_starts l) t = Some X
                /\ strip (group (done ++ t) m 1) = strip X
  | None => scan_heading (line_starts l) t = None
  end.
Proof.
  revert done l; induction t as [|c t IH]; intros done l.
  - cbn [search_from scan_heading].
    pose proof (try_h1_spec (Cursor (length done) l []) done eq_refl) as H.
    destruct (try_at _ _) as [m|]; cbn [rest] in H.
    + destruct H as (Hbol & X & HX & Hg). exists X.
      unfold at_bol in Hbol. cbn [last] in Hbol. rewrite Hbol, HX. auto.
    + unfold at_bol in H. cbn [last] in H.
      destruct H as [-> | ->]; [reflexivity|]. now destruct (line_starts l).
  - cbn [search_from scan_heading].
    pose proof (try_h1_spec (Cursor (length done) l (c :: t)) done eq_refl) as H.
    destruct (try_at _ _) as [m|]; cbn [rest] in H.
    + destruct H as (Hbol & X & HX & Hg). exists X.
      unfold at_bol in Hbol. cbn [last] in Hbol. rewrite Hbol, HX. auto.
    + assert (Hnone : (if line_starts l then heading_text (take_line (c :: t))
                       else None) = None).
      { unfold at_bol in H. cbn [last] in H.
        destruct H as [-> | ->]; [reflexivity|]. now destruct (line_starts l). }
      rewrite Hnone.
      specialize (IH (done ++ [c]) (Some c)).
      rewrite length_app, Nat.add_1_r, <- app_assoc in IH. exact IH.
Qed.

(** [first_h1] finds the first heading line and trims its text. *)
Lemma first_h1_spec (text : str) :
  first_h1 text = option_map strip (first_heading text).
Proof.
  unfold first_h1, search, first_heading.
  pose proof (search_h1_scan text [] None) as H. cbn [length app line_starts] in H.
  destruct (search_from H1_REGEX 0 None text) as [m|].
  - destruct H as (X & -> & Hg). simpl. now rewrite Hg.
  - now rewrite H.
Qed.

(** ** The heading search, line by line *)

Lemma split_go_lines (cur t : str) :
  split_go LF cur t =
  (rev cur ++ take_line t)
  :: match drop_line t with [] => [] | _ :: t' => split_go LF [] t' end.
Proof.
  revert cur; induction t as [|c t IH]; intros cur.
  - simpl. now rewrite app_nil_r.
  - cbn [split_go take_line]. unfold drop_line. cbn [take_line].
    destruct (N.eqb c LF) eqn:Hc.
    + simpl. now rewrite app_nil_r.
    + rewrite IH. cbn [rev length skipn]. now rewrite <- app_assoc.
Qed.

Lemma split_lines (t : str) :
  split_chr LF t =
  take_line t :: match drop_line t with [] => [] | _ :: t' => split_chr LF t' end.
Proof. unfold split_chr. now rewrite split_go_lines. Qed.

Lemma scan_heading_lines_gen (bol : bool) (t : str) :
  scan_heading bol t =
  match (if bol then heading_text (take_line t) else None) with
  | Some x => Some x
  | None =>
      match drop_line t with
      | [] => None
      | _ :: t' => first_some heading_text (split_chr LF t')
      end
  end.
Proof.
  revert bol; induction t as [|c t IH]; intros bol.
  - reflexivity.
  - cbn [scan_heading].
    destruct (if bol then heading_text (take_line (c :: t)) else None);
      [reflexivity|].
    rewrite IH. unfold drop_line. cbn [take_line].
    destruct (N.eqb c LF) eqn:Hc.
    + cbn [length skipn]. rewrite (split_lines t). cbn [first_some].
      destruct (heading_text (take_line t)); [reflexivity|].
      fold (drop_line t). now destruct (drop_line t).
    + cbn [length skipn]. reflexivity.
Qed.

(** The first heading of a text is the first of its lines that is a
    heading line. *)
Lemma first_heading_lines (text : str) :
  first_heading text = first_some heading_text (split_chr LF text).
Proof.
  unfold first_heading. rewrite scan_heading_lines_gen, split_lines.
  cbn [first_some]. destruct (heading_text (take_line text)); [reflexivity|].
  now destruct (drop_line text).
Qed.

Lemma first_nonblank_found (before after : list str) (line : str) :
  Forall (fun l => strip l = []) before -> strip line <> [] ->
  first_nonblank (before ++ line :: after) = Some (strip line).
Proof.
  intros Hb Hl. induction Hb as [|l before Hl0 _ IH]; simpl.
  - destruct (strip line); [congruence|reflexivity].
  - now rewrite Hl0.
Qed.

Lemma first_nonblank_none (lines : list str) :
  Forall (fun l => strip l = []) lines -> first_nonblank lines = None.
Proof. induction 1 as [|l lines Hl _ IH]; simpl; [reflexivity|now rewrite Hl]. Qed.

Lemma title_of_text_heading (stem_ text X : str) :
  first_heading text = Some X -> strip X <> [] ->
  title_of_text stem_ text = strip X.
Proof.
  intros HX Hne. unfold title_of_text. rewrite first_h1_spec, HX. simpl.
  destruct (strip X); [congruence|reflexivity].
Qed.

Lemma title_of_text_fallback (stem_ text : str) :
  (forall X, first_heading text = Some X -> strip X = []) ->
  title_of_text stem_ text = fallback_title stem_ text.
Proof.
  intros H. unfold title_of_text. rewrite first_h1_spec.
  destruct (first_heading text) as [X|]; simpl; [|reflexivity].
  now rewrite (H X eq_refl).
Qed.

Lemma split_chr_line (l t : str) :
  forallb not_newline l = true ->
  split_chr LF (l ++ LF :: t) = l :: split_chr LF t.
Proof.
  intros Hl. rewrite split_lines. unfold drop_line.
  rewrite take_line_app by exact Hl. cbn [take_line].
  change (N.eqb LF LF) with true. cbn iota.
  rewrite app_nil_r, skipn_length_app. reflexivity.
Qed.

Lemma split_chr_lines_before (before : list str) (t : str) :
  Forall (fun l => forallb not_newline l = true) before ->
  split_chr LF (concat (map (fun l => l ++ [LF]) before) ++ t)
  = before ++ split_chr LF t.
Proof.
  induction 1 as [|l before Hl _ IH]; [reflexivity|].
  cbn [map concat app]. rewrite <- !app_assoc. cbn [app].
  rewrite split_chr_line by exact Hl. now rewrite IH.
Qed.

Lemma first_some_skip {A B : Type} (f : A -> option B) (l l' : list A) :
  Forall (fun x => f x = None) l -> first_some f (l ++ l') = first_some f l'.
Proof. induction 1 as [|x l Hx _ IH]; simpl; [reflexivity|now rewrite Hx]. Qed.

(** ** Title derivation *)

(** C7, as the script implements it.  The first heading line gives the
    title when its text is not blank.  When there is no heading line, or
    the first one has blank text, the title is the first line of
    [splitlines] that is not blank, trimmed, and the stem of the file name
    when every line is blank.  The two documented examples follow. *)
Theorem title_for_stages (fs : node) (p : path) (text : str) :
  read_text fs p = Ok text ->
  (forall X, first_some heading_text (split_chr LF text) = Some X ->
             strip X <> [] -> title_for fs p = strip X)
  /\ ((forall X, first_some heading_text (split_chr LF text) = Some X ->
                 strip X = []) ->
      (forall before line after,
          splitlines text = before ++ line :: after ->
          Forall (fun l => strip l = []) before -> strip line <> [] ->
          title_for fs p = strip line)
      /\ (Forall (fun l => strip l = []) (splitlines text) ->
          title_for fs p = stem p))
  /\ (text = py "# Title A\nBody" -> title_for fs p = py "Title A")
  /\ (text = py "No h1 here\nBut first non-empty line" ->
      title_for fs p = py "No h1 here").
Proof.
  intros Hread. unfold title_for. rewrite Hread.
  split; [|split; [|split]].
  - intros X HX Hne. rewrite <- first_heading_lines in HX.
    now apply title_of_text_heading.
  - intros Hblank. rewrite title_of_text_fallback
      by (intros X HX; apply Hblank; now rewrite <- first_heading_lines).
    unfold fallback_title. split.
    + intros before line after -> Hb Hl. now rewrite first_nonblank_found.
    + intros Hall. now rewrite first_nonblank_none.
  - intros ->. vm_compute. reflexivity.
  - intros ->. vm_compute. reflexivity.
Qed.

Lemma title_for_stages_witness :
  title_for (one_file (py "intro\n  # Title B  \nBody")) [py "a.md"] = py "Title B"
  /\ title_for (one_file (py "#  \n\nBody")) [py "a.md"] = py "#"
  /\ title_for (one_file (py " \n\n")) [py "a.md"] = py "a".
Proof.
  split; [|split].
  - destruct (title_for_stages (one_file (py "intro\n  # Title B  \nBody"))
                [py "a.md"] (py "intro\n  # Title B  \nBody") eq_refl)
      as (H1 & _).
    apply (H1 (py "Title B  ")).
    + vm_compute. reflexivity.
    + vm_compute. discriminate.
  - destruct (title_for_stages (one_file (py "#  \n\nBody")) [py "a.md"]
                (py "#  \n\nBody") eq_refl) as (_ & H2 & _).
    destruct H2 as (H2 & _).
    + vm_compute. intros X [= <-]. reflexivity.
    + apply (H2 [] (py "#  ") [py ""; py "Body"]).
      * reflexivity.
      * constructor.
      * vm_compute. discriminate.
  - destruct (title_for_stages (one_file (py " \n\n")) [py "a.md"]
                (py " \n\n") eq_refl) as (_ & H2 & _).
    destruct H2 as (_ & H2).
    + vm_compute. discriminate.
    + apply H2. vm_compute. repeat constructor.
Defined.

(** C7 fails as stated: in a file whose first line is [#] followed by two
    blanks the heading pattern matches and captures a blank, which trims
    to the empty string, but the title is [#]. *)
Lemma title_for_blank_capture_counterexample :
  read_text (one_file (py "#  \nBody")) [py "a.md"] = Ok (py "#  \nBody")
  /\ exists m,
      search H1_REGEX (py "#  \nBody") = Some m
      /\ strip (group (py "#  \nBody") m 1) = []
      /\ title_for (one_file (py "#  \nBody")) [py "a.md"] = py "#"
      /\ title_for (one_file (py "#  \nBody")) [py "a.md"]
         <> strip (group (py "#  \nBody") m 1).
Proof.
  split; [reflexivity|].
  assert (Hh : first_h1 (py "#  \nBody") = Some []) by (vm_compute; reflexivity).
  unfold first_h1 in Hh.
  destruct (search H1_REGEX (py "#  \nBody")) as [m|]; [|discriminate].
  injection Hh as Hh. exists m.
  split; [reflexivity|]. split; [exact Hh|].
  split; [vm_compute; reflexivity|].
  intros Ht.
  assert (Ht' : title_for (one_file (py "#  \nBody")) [py "a.md"] = [])
    by (rewrite Ht; exact Hh).
  vm_compute in Ht'. discriminate.
Qed.



(** C10.  When the text of every heading line of a file is blank, no
    heading gives the title: [first_h1] finds nothing or the empty string,
    and the title is the first line that is not blank, trimmed, or the
    stem of the file name when there is no such line. *)
Theorem title_for_blank_headings (fs : node) (p : path) (text : str) :
  read_text fs p = Ok text ->
  Forall (fun l => forall X, heading_text l = Some X -> strip X = [])
         (split_chr LF text) ->
  (first_h1 text = None \/ first_h1 text = Some [])
  /\ (forall before line after,
        splitlines text = before ++ line :: after ->
        Forall (fun l => strip l = []) before -> strip line <> [] ->
        title_for fs p = strip line)
  /\ (Forall (fun l => strip l = []) (splitlines text) ->
      title_for fs p = stem p).
Proof.
  intros Hread Hall.
  assert (Hblank : forall X, first_heading text = Some X -> strip X = []).
  { intros X HX. rewrite first_heading_lines in HX.
    apply first_some_Some in HX as (l & Hin & Hl).
    rewrite Forall_forall in Hall. exact (Hall l Hin X Hl). }
  split.
  - rewrite first_h1_spec. destruct (first_heading text) as [X|]; [|now left].
    right. simpl. now rewrite (Hblank X eq_refl).
  - unfold title_for. rewrite Hread, title_of_text_fallback by exact Hblank.
    unfold fallback_title. split.
    + intros before line after -> Hb Hl. now rewrite first_nonblank_found.
    + intros Hall'. now rewrite first_nonblank_none.
Qed.

Lemma title_for_blank_headings_witness :
  (first_h1 (py "\n#  \t\nBody") = None \/ first_h1 (py "\n#  \t\nBody") = Some [])
  /\ title_for (one_file (py "\n#  \t\nBody")) [py "a.md"] = py "#".
Proof.
  destruct (title_for_blank_headings (one_file (py "\n#  \t\nBody")) [py "a.md"]
              (py "\n#  \t\nBody") eq_refl) as (H1 & H2 & _).
  - vm_compute. repeat constructor; intros X [=]; subst; reflexivity.
  - split; [exact H1|].
    apply (H2 [py ""] (py "#  \t") [py "Body"]).
    + reflexivity.
    + repeat constructor.
    + vm_compute. discriminate.
Defined.

(** ** Exclusion patterns *)

(** C5, where the script departs from its documentation.
    [normalize_glob] removes every leading dot and slash of a pattern, not
    only a leading [./]: the pattern [.foo/**] becomes [foo/**] and
    [../x/*.md] becomes [x/*.md].  With [.foo/**] excluded, the file under
    [.foo] is still listed and the one under [foo] is not. *)
Theorem normalize_glob_strips_dots_and_slashes :
  normalize_glob (py ".foo/**") = py "foo/**"
  /\ normalize_glob (py "../x/*.md") = py "x/*.md"
  /\ normalize_glob (py "./x\\*.md") = py "x/*.md"
  /\ (forall pat, normalize_glob (DOT :: pat) = normalize_glob pat)
  /\ (forall pat, normalize_glob (SLASH :: pat) = normalize_glob pat)
  /\ iter_markdown_files hidden_and_plain adr [py ".foo/**"] [py "md"]
     = Ok [adr ++ [py ".foo"; py "a.md"]].
Proof.
  repeat split; try (vm_compute; reflexivity); intros pat; reflexivity.
Qed.

Lemma strip_prefix_app (src rel : path) : strip_prefix src (src ++ rel) = Some rel.
Proof.
  induction src as [|s src IH]; simpl; [reflexivity|].
  now rewrite str_eqb_refl.
Qed.

Lemma relative_to_app (src rel : path) : relative_to (src ++ rel) src = Ok rel.
Proof. unfold relative_to. now rewrite strip_prefix_app. Qed.

Lemma rglob_below (fs : node) (src p : path) :
  In p (rglob fs src) -> exists rel, p = src ++ rel.
Proof.
  unfold rglob. destruct (lookup src fs); [|contradiction].
  intros H. apply in_map_iff in H as (rel & <- & _). now exists rel.
Qed.

Lemma iter_go_filter (fs : node) (src : path) (pats exts : list str) (ps : list path) :
  (forall p, In p ps -> exists rel, p = src ++ rel) ->
  iter_go fs src pats exts ps =
  Ok (filter
        (fun p =>
           is_file fs p
           && mem_str (lstrip_chars (py ".") (suffix p)) exts
           && negb (existsb
                      (fun pat => fnmatch (join [SLASH] (skipn (length src) p)) pat)
                      pats))
        ps).
Proof.
  induction ps as [|p ps IH]; intros Hps; [reflexivity|].
  cbn [iter_go filter].
  assert (IH' := IH (fun q Hq => Hps q (or_intror Hq))).
  destruct (is_file fs p); cbn [negb andb]; [|exact IH'].
  destruct (mem_str _ exts); cbn [negb andb]; [|exact IH'].
  destruct (Hps p (or_introl eq_refl)) as (rel & ->).
  rewrite relative_to_app, skipn_length_app.
  destruct (existsb _ pats); cbn [negb]; [exact IH'|].
  now rewrite IH'.
Qed.

Lemma iter_markdown_files_filter (fs : node) (src : path) (ex exts : list str) :
  iter_markdown_files fs src ex exts =
  Ok (filter
        (fun p =>
           is_file fs p
           && mem_str (lstrip_chars (py ".") (suffix p)) exts
           && negb (existsb
                      (fun pat => fnmatch (join [SLASH] (skipn (length src) p)) pat)
                      (map normalize_glob ex)))
        (rglob fs src)).
Proof. unfold iter_markdown_files. apply iter_go_filter, rglob_below. Qed.

(** *** What [fnmatch] accepts *)

Lemma gmatch_star (ts : list gtok) (s : str) :
  gmatch (GStar :: ts) s =
  gmatch ts s || match s with [] => false | _ :: s' => gmatch (GStar :: ts) s' end.
Proof. destruct s; reflexivity. Qed.

Lemma gmatch_star_iff (ts : list gtok) (s : str) :
  gmatch (GStar :: ts) s = true <-> exists u v, s = u ++ v /\ gmatch ts v = true.
Proof.
  induction s as [|c s IH]; rewrite gmatch_star.
  - rewrite orb_false_r. split.
    + intros H. now exists [], [].
    + intros (u & v & Huv & Hv). symmetry in Huv.
      apply app_eq_nil in Huv as [_ ->]. exact Hv.
  - split.
    + intros H. apply orb_prop in H as [H|H].
      * now exists [], (c :: s).
      * apply IH in H as (u & v & -> & Hv). now exists (c :: u), v.
    + intros ([|x u] & v & Huv & Hv); simpl in Huv.
      * subst v. now rewrite Hv.
      * injection Huv as _ ->. apply orb_true_iff. right.
        apply IH. now exists u, v.
Qed.

Lemma gmatch_chars (l : str) (ts : list gtok) (s : str) :
  gmatch (map GChr l ++ ts) s = true <-> exists v, s = l ++ v /\ gmatch ts v = true.
Proof.
  revert s; induction l as [|x l IH]; intros s.
  - simpl. split; [intros H; now exists s|now intros (v & -> & H)].
  - cbn [map app gmatch]. destruct s as [|c s].
    + split; [discriminate|]. now intros (v & Hv & _).
    + rewrite andb_true_iff, IH, N.eqb_eq. split.
      * intros (-> & v & -> & H). now exists v.
      * intros (v & Hv & H). simpl in Hv. injection Hv as -> ->.
        split; [reflexivity|]. now exists v.
Qed.

Lemma gmatch_nil (s : str) : gmatch [] s = true <-> s = [].
Proof. destruct s; simpl; split; congruence. Qed.

Lemma glob_tokens_plain (after_star : bool) (l rest_ : str) :
  plain l = true ->
  glob_tokens_go 0 after_star (l ++ rest_) =
  map GChr l ++ glob_tokens_go 0 (match l with [] => after_star | _ => false end) rest_.
Proof.
  revert after_star; induction l as [|c l IH]; intros after_star Hl; [reflexivity|].
  cbn [plain forallb] in Hl. apply andb_prop in Hl as [Hc Hl].
  apply negb_true_iff in Hc. apply orb_false_elim in Hc as [Hc Hb].
  apply orb_false_elim in Hc as [Hs Hq].
  cbn [app glob_tokens_go map]. rewrite Hs, Hq, Hb. f_equal.
  rewrite (IH false Hl). now destruct l.
Qed.

Lemma fnmatch_star_between (a b name_ : str) :
  plain a = true -> plain b = true ->
  fnmatch name_ (a ++ STAR :: b) = true <-> exists u, name_ = a ++ u ++ b.
Proof.
  intros Ha Hb. unfold fnmatch, glob_tokens.
  rewrite (glob_tokens_plain false a (STAR :: b) Ha).
  replace (match a with [] => false | _ :: _ => false end) with false
    by (now destruct a).
  assert (Hbt : glob_tokens_go 0 true b = map GChr b).
  { rewrite <- (app_nil_r b) at 1.
    rewrite (glob_tokens_plain true b [] Hb). simpl. apply app_nil_r. }
  assert (Htoks : glob_tokens_go 0 false (STAR :: b) = GStar :: map GChr b).
  { cbn [glob_tokens_go]. change (N.eqb STAR STAR) with true. cbn iota.
    now rewrite Hbt. }
  rewrite Htoks, gmatch_chars. split.
  - intros (v & -> & H). apply gmatch_star_iff in H as (u & w & -> & Hw).
    rewrite <- (app_nil_r (map GChr b)) in Hw.
    apply gmatch_chars in Hw as (x & -> & Hx). apply gmatch_nil in Hx. subst x.
    exists u. now rewrite app_nil_r.
  - intros (u & ->). exists (u ++ b). split; [reflexivity|].
    apply gmatch_star_iff. exists u, b. split; [reflexivity|].
    rewrite <- (app_nil_r (map GChr b)). apply gmatch_chars.
    exists []. now rewrite app_nil_r.
Qed.

Lemma glob_tokens_double_star (pat : str) :
  glob_tokens (STAR :: STAR :: pat) = glob_tokens (STAR :: pat).
Proof. reflexivity. Qed.




(** ** Sorting *)

Lemma str_ltb_irrefl (a : str) : str_ltb a a = false.
Proof.
  induction a as [|x a IH]; simpl; [reflexivity|].
  now rewrite N.ltb_irrefl, N.eqb_refl, IH.
Qed.

Lemma str_ltb_trans (a b c : str) :
  str_ltb a b = true -> str_ltb b c = true -> str_ltb a c = true.
Proof.
  revert b c; induction a as [|x a IH]; intros [|y b] [|z c]; simpl;
    try discriminate; try reflexivity.
  intros Hab Hbc.
  apply orb_prop in Hab as [Hxy|Hab]; apply orb_prop in Hbc as [Hyz|Hbc].
  - apply N.ltb_lt in Hxy, Hyz.
    assert (H : (x <? z)%N = true) by (apply N.ltb_lt; lia). now rewrite H.
  - apply andb_prop in Hbc as [Hyz Hbc]. apply N.eqb_eq in Hyz. subst z.
    now rewrite Hxy.
  - apply andb_prop in Hab as [Hxy Hab]. apply N.eqb_eq in Hxy. subst y.
    now rewrite Hyz.
  - apply andb_prop in Hab as [Hxy Hab]. apply andb_prop in Hbc as [Hyz Hbc].
    apply N.eqb_eq in Hxy, Hyz. subst y z.
    rewrite N.eqb_refl, (IH b c Hab Hbc). apply orb_true_r.
Qed.

Lemma str_ltb_total (a b : str) :
  str_ltb a b = false -> str_ltb b a = false -> a = b.
Proof.
  revert b; induction a as [|x a IH]; intros [|y b]; simpl;
    try discriminate; try reflexivity.
  intros Hab Hba.
  apply orb_false_elim in Hab as [Hxy Hab].
  apply orb_false_elim in Hba as [Hyx Hba].
  apply N.ltb_ge in Hxy, Hyx.
  assert (x = y) by lia. subst y.
  rewrite N.eqb_refl in Hab, Hba. simpl in Hab, Hba.
  f_equal. now apply IH.
Qed.

Lemma str_ltb_asym (a b : str) : str_ltb a b = true -> str_ltb b a = false.
Proof.
  intros Hab. destruct (str_ltb b a) eqn:Hba; [|reflexivity].
  pose proof (str_ltb_trans _ _ _ Hab Hba) as H.
  now rewrite str_ltb_irrefl in H.
Qed.

Lemma str_leb_trans (a b c : str) :
  str_ltb b a = false -> str_ltb c b = false -> str_ltb c a = false.
Proof.
  intros Hab Hbc. destruct (str_ltb c a) eqn:Hca; [|reflexivity].
  destruct (str_ltb a b) eqn:Hlt.
  - now rewrite (str_ltb_trans _ _ _ Hca Hlt) in Hbc.
  - rewrite (str_ltb_total a b Hlt Hab) in Hca. congruence.
Qed.

Section StableSort.
Variables (A K : Type) (lt : K -> K -> bool) (key : A -> K).
Hypothesis lt_asym : forall a b, lt a b = true -> lt b a = false.
Hypothesis le_trans :
  forall a b c, lt b a = false -> lt c b = false -> lt c a = false.

Let le (x y : A) : Prop := lt (key y) (key x) = false.

Lemma insert_by_perm (x : A) (l : list A) :
  Permutation (x :: l) (insert_by lt key x l).
Proof using Type.
  induction l as [|y l IH]; simpl; [apply Permutation_refl|].
  destruct (lt (key y) (key x)); [|apply Permutation_refl].
  eapply Permutation_trans; [apply perm_swap|]. now apply perm_skip.
Qed.

Lemma sorted_by_perm (l : list A) : Permutation l (sorted_by lt key l).
Proof using Type.
  induction l as [|x l IH]; simpl; [apply Permutation_refl|].
  eapply Permutation_trans; [apply perm_skip, IH|apply insert_by_perm].
Qed.

Lemma insert_by_sorted (x : A) (l : list A) :
  StronglySorted le l -> StronglySorted le (insert_by lt key x l).
Proof using lt_asym le_trans.
  induction 1 as [|y l Hl IH Hy]; simpl.
  - constructor; constructor.
  - destruct (lt (key y) (key x)) eqn:Hyx.
    + constructor; [exact IH|].
      rewrite Forall_forall in *. intros z Hz.
      apply (Permutation_in _ (Permutation_sym (insert_by_perm x l))) in Hz.
      destruct Hz as [<-|Hz]; [now apply lt_asym|now apply Hy].
    + constructor; [now constructor|].
      constructor; [exact Hyx|].
      rewrite Forall_forall in *. intros z Hz.
      unfold le. eapply le_trans; [exact Hyx|now apply Hy].
Qed.

Lemma sorted_by_sorted (l : list A) : StronglySorted le (sorted_by lt key l).
Proof using lt_asym le_trans.
  induction l as [|x l IH]; simpl; [constructor|now apply insert_by_sorted].
Qed.
End StableSort.

(** ** Grouping *)

Lemma setdefault_files (k k0 : str) (f : path) (g : list (str * list path)) :
  group_files k (setdefault_append k0 f g) =
  if str_eqb k0 k then group_files k g ++ [f] else group_files k g.
Proof.
  induction g as [|[k' fs] g IH]; simpl.
  - now destruct (str_eqb k0 k).
  - destruct (str_eqb_spec k' k0) as [->|Hk]; simpl.
    + now destruct (str_eqb k0 k).
    + rewrite IH. destruct (str_eqb_spec k' k) as [->|Hk']; [|reflexivity].
      destruct (str_eqb_spec k0 k) as [->|]; [congruence|reflexivity].
Qed.

Lemma setdefault_keys (k0 : str) (f : path) (g : list (str * list path)) :
  map fst (setdefault_append k0 f g) =
  if mem_str k0 (map fst g) then map fst g else map fst g ++ [k0].
Proof.
  induction g as [|[k' fs] g IH]; simpl; [reflexivity|].
  destruct (str_eqb_spec k' k0) as [->|Hk]; simpl.
  - now rewrite str_eqb_refl.
  - rewrite IH. destruct (str_eqb_spec k0 k') as [->|_]; [congruence|]. simpl.
    now destruct (mem_str k0 (map fst g)).
Qed.

Lemma mem_str_In (k : str) (l : list str) : mem_str k l = true <-> In k l.
Proof.
  unfold mem_str. rewrite existsb_exists. split.
  - intros (x & Hx & Hk). apply str_eqb_eq in Hk. now subst.
  - intros H. exists k. split; [exact H|apply str_eqb_refl].
Qed.

Lemma setdefault_keys_In (k k0 : str) (f : path) (g : list (str * list path)) :
  In k (map fst (setdefault_append k0 f g)) <-> In k (map fst g) \/ k = k0.
Proof.
  rewrite setdefault_keys. destruct (mem_str k0 (map fst g)) eqn:Hm.
  - apply mem_str_In in Hm. split; [auto|]. intros [H| ->]; auto.
  - rewrite in_app_iff. simpl. intuition congruence.
Qed.

Lemma setdefault_keys_NoDup (k0 : str) (f : path) (g : list (str * list path)) :
  NoDup (map fst g) -> NoDup (map fst (setdefault_append k0 f g)).
Proof.
  intros Hg. rewrite setdefault_keys. destruct (mem_str k0 (map fst g)) eqn:Hm.
  - exact Hg.
  - apply NoDup_app; [exact Hg|repeat constructor; auto|].
    intros x Hx [<-|[]]. apply mem_str_In in Hx. congruence.
Qed.

Lemma group_key_for_below (src rel : path) (depth : Z) :
  group_key_for (src ++ rel) src depth = Ok (key_of src depth (src ++ rel)).
Proof.
  unfold key_of, group_key_for. rewrite relative_to_app.
  now destruct (removelast rel).
Qed.

Lemma make_groups_spec (src : path) (depth : Z) (files : list path)
  (g : list (str * list path)) :
  Forall (fun f => exists rel, f = src ++ rel) files ->
  exists g',
    make_groups src depth files g = Ok g'
    /\ (forall k, group_files k g' =
                  group_files k g
                  ++ filter (fun f => str_eqb (key_of src depth f) k) files)
    /\ (NoDup (map fst g) -> NoDup (map fst g'))
    /\ (forall k, In k (map fst g') <->
                  In k (map fst g)
                  \/ exists f, In f files /\ key_of src depth f = k).
Proof.
  intros Hfiles. revert g.
  induction Hfiles as [|f files (rel & ->) _ IH]; intros g.
  - exists g. split; [reflexivity|]. split; [intros k; now rewrite app_nil_r|].
    split; [auto|]. intros k. split; [auto|]. intros [H|(f & [] & _)]. exact H.
  - cbn [make_groups]. rewrite group_key_for_below.
    destruct (IH (setdefault_append (key_of src depth (src ++ rel)) (src ++ rel) g))
      as (g' & Hg' & Hf & Hn & Hk).
    exists g'. split; [exact Hg'|]. split; [|split].
    + intros k. rewrite Hf, setdefault_files. cbn [filter].
      destruct (str_eqb (key_of src depth (src ++ rel)) k);
        [now rewrite <- app_assoc|reflexivity].
    + intros Hg. now apply Hn, setdefault_keys_NoDup.
    + intros k. rewrite Hk, setdefault_keys_In. split.
      * intros [[H| ->]|(f & Hin & Hf')]; auto.
        -- right. exists (src ++ rel). split; [now left|reflexivity].
        -- right. exists f. split; [now right|exact Hf'].
      * intros [H|(f & [<-|Hin] & Hf')]; auto.
        right. now exists f.
Qed.

(** ** Rendering by subdirectory *)

(** C8.  In subdirectory mode the output is made of one block per group
    key: the keys are in ascending order of their lower-case forms, none
    twice, and the block of a key lists the files with that key in the
    order of the input list. *)
Theorem groups_sorted_entries_in_order `{StrCase} (fs : node) (files : list path)
  (target src : path) (depth level : Z) (mode : case_mode) :
  Forall (fun f => exists rel, f = src ++ rel) files ->
  exists ks,
    build_list_markdown fs files target src GroupSubdir depth level mode =
    Ok (join_trimmed
          (flat_map
             (fun k =>
                group_header k level mode
                :: map (list_item fs (parent target))
                     (filter (fun f => str_eqb (key_of src depth f) k) files)
                   ++ [[]])
             ks))
    /\ StronglySorted (fun a b => str_ltb (str_lower b) (str_lower a) = false) ks
    /\ NoDup ks
    /\ (forall k, In k ks <-> exists f, In f files /\ key_of src depth f = k).
Proof.
  intros Hfiles.
  destruct (make_groups_spec src depth files [] Hfiles) as (g & Hg & Hf & Hn & Hk).
  exists (sorted_by str_ltb str_lower (map fst g)).
  split; [|split; [|split]].
  - unfold build_list_markdown. rewrite Hg. unfold group_lines.
    do 2 f_equal. apply flat_map_ext. intros k. now rewrite Hf.
  - apply sorted_by_sorted.
    + apply str_ltb_asym.
    + apply str_leb_trans.
  - eapply Permutation_NoDup; [apply sorted_by_perm|]. apply Hn. constructor.
  - intros k. split.
    + intros Hin.
      apply (Permutation_in _ (Permutation_sym (sorted_by_perm _ _ str_ltb str_lower _)))
        in Hin.
      apply Hk in Hin as [[]|Hin]. exact Hin.
    + intros Hin. apply (Permutation_in _ (sorted_by_perm _ _ str_ltb str_lower _)).
      apply Hk. now right.
Qed.

Lemma groups_sorted_entries_in_order_witness :
  exists ks,
    build_list_markdown grouping_tree grouping_files [py "README.md"] adr
      GroupSubdir 1 2 CaseTitle =
    Ok (join_trimmed
          (flat_map
             (fun k =>
                group_header k 2 CaseTitle
                :: map (list_item grouping_tree (parent [py "README.md"]))
                     (filter (fun f => str_eqb (key_of adr 1 f) k) grouping_files)
                   ++ [[]])
             ks))
    /\ StronglySorted (fun a b => str_ltb (str_lower b) (str_lower a) = false) ks
    /\ NoDup ks
    /\ (forall k, In k ks <-> exists f, In f grouping_files /\ key_of adr 1 f = k).
Proof.
  apply (groups_sorted_entries_in_order grouping_tree grouping_files
           [py "README.md"] adr 1 2 CaseTitle).
  repeat constructor.
  - now exists [py "db"; py "001.md"].
  - now exists [py "api"; py "002.md"].
  - now exists [py "003.md"].
Defined.

(** The grouping test of the test suite: the headings [## Api], [## Db]
    and [## Misc] with their items; the empty key sorts first. *)
Example grouping_test :
  build_list_markdown grouping_tree grouping_files [py "README.md"] adr
    GroupSubdir 1 2 CaseTitle
  = Ok (py "## Misc\n- [Root ADR](docs/adr/003.md)\n\n## Api\n- [API Style](docs/adr/api/002.md)\n\n## Db\n- [DB Choice](docs/adr/db/001.md)\n").
Proof. vm_compute. reflexivity. Qed.

(** C4 fails as stated: with the upper-case transform the group of the
    empty key is headed [MISC]. *)
Lemma misc_label_upper_counterexample :
  build_list_markdown grouping_tree [adr ++ [py "003.md"]] [py "README.md"] adr
    GroupSubdir 1 2 CaseUpper
  = Ok (py "## MISC\n- [Root ADR](docs/adr/003.md)\n").
Proof. vm_compute. reflexivity. Qed.

(** C4, as the script implements it.  The heading of a group is the
    heading marker, a blank and the configured transform applied to the
    key, or to [Misc] when the key is empty: [Misc] is transformed like
    any other title, and reads [Misc] without a transform and in title
    case, [MISC] in upper case and [misc] in lower case. *)
Theorem group_label_is_transformed :
  (forall (SC : StrCase) fs target_dir groups level mode,
      group_lines fs target_dir groups level mode =
      flat_map
        (fun k =>
           (repeat HASH (Z.to_nat (Z.max 1 level)) ++ py " "
            ++ apply_case (match k with [] => py "Misc" | _ :: _ => k end) mode)
           :: map (list_item fs target_dir) (group_files k groups) ++ [[]])
        (sorted_by str_ltb str_lower (map fst groups)))
  /\ (forall (SC : StrCase) level,
         group_header [] level CaseNone
         = repeat HASH (Z.to_nat (Z.max 1 level)) ++ py " Misc")
  /\ apply_case (py "Misc") CaseTitle = py "Misc"
  /\ apply_case (py "Misc") CaseUpper = py "MISC"
  /\ apply_case (py "Misc") CaseLower = py "misc".
Proof.
  split; [reflexivity|]. split; [reflexivity|].
  repeat split; vm_compute; reflexivity.
Qed.

(** ** Substituting twice *)

Lemma app_same_length (A : Type) (a b x y : list A) :
  length a = length b -> a ++ x = b ++ y -> a = b /\ x = y.
Proof.
  revert b; induction a as [|c a IH]; intros [|d b]; simpl; try discriminate.
  - auto.
  - intros Hl Heq. injection Hl as Hl. injection Heq as -> Heq.
    destruct (IH b Hl Heq) as [-> ->]. auto.
Qed.

Lemma app_prefix_shorter (A : Type) (a b x y : list A) :
  a ++ x = b ++ y -> length a <= length b -> exists c, b = a ++ c /\ x = c ++ y.
Proof.
  intros Heq Hlen. apply app_eq_app in Heq as (l & [[Ha Hy]|[Hb Hx]]).
  - assert (l = []) as ->.
    { rewrite Ha, length_app in Hlen. destruct l; [reflexivity|simpl in Hlen; lia]. }
    exists []. rewrite app_nil_r in Ha. simpl in Hy. subst. now rewrite app_nil_r.
  - now exists l.
Qed.

(** When [s] occurs in [d ++ s ++ y] at the front as well, the front of
    the text can be read as [s] followed by as many characters as [d]
    has. *)
Lemma occurrence_shift (s d x y : str) :
  s ++ x = d ++ s ++ y -> exists d', d ++ s = s ++ d' /\ length d' = length d.
Proof.
  intros Heq. rewrite app_assoc in Heq.
  destruct (app_prefix_shorter _ s (d ++ s) x y Heq) as (c & Hc & _).
  { rewrite length_app. lia. }
  exists c. split; [exact Hc|].
  apply (f_equal (@length N)) in Hc. rewrite !length_app in Hc. lia.
Qed.

Lemma decomposition_unique (s e pre mid post pre2 mid2 post2 : str) :
  pre2 ++ s ++ mid2 ++ e ++ post2 = pre ++ s ++ mid ++ e ++ post ->
  length pre2 = length pre -> length mid2 = length mid ->
  pre2 = pre /\ mid2 = mid /\ post2 = post.
Proof.
  intros Heq Hp Hm.
  apply app_same_length in Heq as [-> Heq]; [|exact Hp].
  apply app_inv_head in Heq.
  apply app_same_length in Heq as [-> Heq]; [|exact Hm].
  apply app_inv_head in Heq. auto.
Qed.

(** Substituting the same replacement again changes nothing, provided
    the end marker does not occur in the inserted text before its own
    place. *)
Lemma replace_between_markers_again (content s e r u : str) (changed : bool) :
  replace_between_markers content s e r = Ok (u, changed) ->
  (forall m q, (LF :: r) ++ e = m ++ e ++ q -> length (LF :: r) <= length m) ->
  replace_between_markers u s e r = Ok (u, false).
Proof.
  intros Hfirst Hend.
  unfold replace_between_markers in Hfirst.
  destruct (search (marker_pattern s e) content) as [m1|] eqn:Hs1; [|discriminate].
  fold (replace_between_markers content s e r) in Hfirst.
  destruct (replace_between_markers_found content s e r m1 Hs1)
    as (pre & mid & post & Hc & Hpre & _ & Hr).
  assert (Hu : u = pre ++ s ++ (LF :: r) ++ e ++ post).
  { unfold replace_between_markers in Hr. rewrite Hs1 in Hr.
    rewrite Hr in Hfirst. now injection Hfirst as <- _. }
  destruct (search (marker_pattern s e) u) as [m2|] eqn:Hs2.
  2:{ exfalso. unfold search in Hs2. rewrite Hu in Hs2.
      now apply search_marker_complete in Hs2. }
  destruct (replace_between_markers_found u s e r m2 Hs2)
    as (pre2 & mid2 & post2 & Hu2 & Hpre2 & Hmid2 & Hr2).
  rewrite Hr2.
  assert (Hlen_pre : length pre2 = length pre).
  { apply Nat.le_antisymm; [exact (Hpre2 pre (LF :: r) post Hu)|].
    destruct (Nat.le_gt_cases (length pre) (length pre2)) as [Hle|Hlt];
      [exact Hle|exfalso].
    assert (Heq : pre2 ++ (s ++ mid2 ++ e ++ post2)
                  = pre ++ s ++ (LF :: r) ++ e ++ post) by (now rewrite <- Hu2).
    destruct (app_prefix_shorter _ pre2 pre _ _ Heq) as (d & Hd & Hrest); [lia|].
    destruct (occurrence_shift s d _ _ Hrest) as (d' & Hd' & _).
    assert (Hc' : content = pre2 ++ s ++ (d' ++ mid) ++ e ++ post).
    { rewrite Hc, Hd. rewrite <- !app_assoc.
      rewrite (app_assoc d s), Hd'. now rewrite <- !app_assoc. }
    apply Hpre in Hc'. lia. }
  assert (Hrest : mid2 ++ e ++ post2 = (LF :: r) ++ e ++ post).
  { rewrite Hu in Hu2. symmetry in Hu2.
    apply app_same_length in Hu2 as [_ Hu2]; [|exact Hlen_pre].
    now apply app_inv_head in Hu2. }
  assert (Hlen_mid : length mid2 = length (LF :: r)).
  { apply Nat.le_antisymm; [exact (Hmid2 (LF :: r) post Hrest)|].
    destruct (Nat.le_gt_cases (length (LF :: r)) (length mid2)) as [Hle|Hlt];
      [exact Hle|exfalso].
    destruct (app_prefix_shorter _ mid2 (LF :: r) _ _ Hrest) as (d & Hd & Hrest');
      [lia|].
    destruct (occurrence_shift e d _ _ Hrest') as (d' & Hd' & _).
    assert (He : (LF :: r) ++ e = mid2 ++ e ++ d').
    { rewrite Hd, <- app_assoc, Hd'. reflexivity. }
    apply Hend in He. lia. }
  assert (Hall : pre2 ++ s ++ mid2 ++ e ++ post2
                 = pre ++ s ++ (LF :: r) ++ e ++ post) by (now rewrite <- Hu2).
  destruct (decomposition_unique s e pre (LF :: r) post pre2 mid2 post2
              Hall Hlen_pre Hlen_mid) as (-> & -> & ->).
  subst u. cbn [app]. now rewrite str_eqb_refl.
Qed.

(** ** The file system *)

Lemma lookup_app (a b : path) (fs : node) :
  lookup (a ++ b) fs =
  match lookup a fs with Some n => lookup b n | None => None end.
Proof.
  revert fs; induction a as [|s a IH]; intros fs; simpl; [reflexivity|].
  destruct fs as [d t|t es]; [reflexivity|].
  destruct (entry s es); [apply IH|reflexivity].
Qed.

Lemma entry_replace_same (k : str) (n n' : node) (es : list (str * node)) :
  entry k es = Some n -> entry k (replace_entry k n' es) = Some n'.
Proof.
  induction es as [|[k0 n0] es IH]; simpl; [discriminate|].
  destruct (str_eqb k0 k) eqn:Hk; simpl; rewrite Hk; auto.
Qed.

Lemma entry_replace_other (k k' : str) (n' : node) (es : list (str * node)) :
  k <> k' -> entry k (replace_entry k' n' es) = entry k es.
Proof.
  intros Hne. induction es as [|[k0 n0] es IH]; simpl; [reflexivity|].
  destruct (str_eqb_spec k0 k') as [->|Hk0]; simpl.
  - destruct (str_eqb_spec k' k); [congruence|reflexivity].
  - now rewrite IH.
Qed.

Lemma write_text_ok (p : path) (text : str) (now : Z) (fs : node)
  (d : option str) (t : Z) :
  lookup p fs = Some (File d t) ->
  exists fs', write_text p text now fs = Some fs'
              /\ lookup p fs' = Some (File (Some text) now).
Proof.
  revert fs; induction p as [|s p IH]; intros fs; simpl.
  - intros [= ->]. eexists. split; reflexivity.
  - destruct fs as [d0 t0|t0 es]; [discriminate|].
    destruct (entry s es) as [n|] eqn:He; [|discriminate].
    intros Hl. destruct (IH n Hl) as (n' & Hw & Hl').
    rewrite Hw. eexists. split; [reflexivity|].
    simpl. now rewrite (entry_replace_same s n n' es He).
Qed.

Lemma write_text_other (q p : path) (text : str) (now : Z) (fs fs' : node)
  (d : option str) (t : Z) :
  strip_prefix q p = None ->
  lookup p fs = Some (File d t) ->
  write_text p text now fs = Some fs' ->
  lookup q fs' = lookup q fs.
Proof.
  revert q fs fs'; induction p as [|s p IH]; intros q fs fs' Hq Hl Hw.
  - destruct q as [|s0 q]; [discriminate|].
    simpl in Hl. injection Hl as ->. simpl in Hw. injection Hw as <-.
    reflexivity.
  - destruct q as [|s0 q]; [discriminate|].
    simpl in Hl, Hw. destruct fs as [d0 t0|t0 es]; [discriminate|].
    destruct (entry s es) as [n|] eqn:He; [|discriminate].
    destruct (write_text p text now n) as [n'|] eqn:Hn; [|discriminate].
    injection Hw as <-. simpl in Hq. simpl.
    destruct (str_eqb_spec s0 s) as [->|Hne].
    + rewrite (entry_replace_same s n n' es He), He.
      exact (IH q n n' Hq Hl Hn).
    + now rewrite entry_replace_other.
Qed.

Lemma universal_newlines_go_no_cr (skip : bool) (s : str) :
  ~ In CR (universal_newlines_go skip s).
Proof.
  revert skip; induction s as [|c s IH]; intros skip; simpl; [auto|].
  destruct (skip && (c =? LF)%N); [apply IH|].
  destruct (N.eqb_spec c CR) as [->|Hc]; simpl.
  - intros [H|H]; [discriminate|now apply IH in H].
  - intros [H|H]; [congruence|now apply IH in H].
Qed.

Lemma universal_newlines_no_cr (s : str) : ~ In CR (universal_newlines s).
Proof. apply universal_newlines_go_no_cr. Qed.

Lemma universal_newlines_id (s : str) : ~ In CR s -> universal_newlines s = s.
Proof.
  unfold universal_newlines. induction s as [|c s IH]; simpl; [reflexivity|].
  intros Hn. destruct (N.eqb_spec c CR) as [->|Hc]; [exfalso; apply Hn; now left|].
  f_equal. apply IH. intros H. apply Hn. now right.
Qed.

(** What the scan reads of a file depends only on the node at its path. *)
Lemma is_file_ext (fs fs' : node) (p : path) :
  lookup p fs' = lookup p fs -> is_file fs' p = is_file fs p.
Proof. unfold is_file. now intros ->. Qed.

Lemma read_text_ext (fs fs' : node) (p : path) :
  lookup p fs' = lookup p fs -> read_text fs' p = read_text fs p.
Proof. unfold read_text. now intros ->. Qed.

Lemma title_for_ext (fs fs' : node) (p : path) :
  lookup p fs' = lookup p fs -> title_for fs' p = title_for fs p.
Proof. unfold title_for. intros H. now rewrite (read_text_ext fs fs' p H). Qed.

Lemma sort_key_ext `{StrCase} (fs fs' : node) (mode : sort_mode) (p : path) :
  lookup p fs' = lookup p fs -> sort_key fs' mode p = sort_key fs mode p.
Proof. unfold sort_key, stat_mtime. now intros ->. Qed.

Lemma insert_by_ext_in (A K : Type) (lt : K -> K -> bool) (key key' : A -> K)
  (x : A) (l : list A) :
  key x = key' x -> (forall y, In y l -> key y = key' y) ->
  insert_by lt key x l = insert_by lt key' x l.
Proof.
  intros Hx. induction l as [|y l IH]; intros Hl; simpl; [reflexivity|].
  rewrite <- Hx, <- (Hl y (or_introl eq_refl)).
  destruct (lt (key y) (key x)); [|reflexivity].
  f_equal. apply IH. intros z Hz. apply Hl. now right.
Qed.

Lemma sorted_by_ext_in (A K : Type) (lt : K -> K -> bool) (key key' : A -> K)
  (l : list A) :
  (forall x, In x l -> key x = key' x) ->
  sorted_by lt key l = sorted_by lt key' l.
Proof.
  induction l as [|x l IH]; intros Hl; simpl; [reflexivity|].
  rewrite <- IH by (intros y Hy; apply Hl; now right).
  apply insert_by_ext_in; [apply Hl; now left|].
  intros y Hy. apply Hl. right.
  exact (Permutation_in _ (Permutation_sym (sorted_by_perm _ _ lt key l)) Hy).
Qed.

Lemma below_agree (fs fs' : node) (src : path) :
  lookup src fs' = lookup src fs ->
  forall rel, lookup (src ++ rel) fs' = lookup (src ++ rel) fs.
Proof. intros H rel. now rewrite !lookup_app, H. Qed.

Lemma iter_markdown_files_ext (fs fs' : node) (src : path) (ex exts : list str) :
  lookup src fs' = lookup src fs ->
  iter_markdown_files fs' src ex exts = iter_markdown_files fs src ex exts.
Proof.
  intros H. rewrite !iter_markdown_files_filter.
  pose proof (below_agree fs fs' src H) as Hbelow.
  unfold rglob. rewrite H. f_equal.
  destruct (lookup src fs) as [n|]; [|reflexivity].
  apply filter_ext_in. intros p Hp.
  apply in_map_iff in Hp as (rel & <- & _).
  now rewrite (is_file_ext fs fs' _ (Hbelow rel)).
Qed.

Lemma iter_markdown_files_below (fs : node) (src : path) (ex exts : list str)
  (found : list path) :
  iter_markdown_files fs src ex exts = Ok found ->
  Forall (fun f => exists rel, f = src ++ rel) found.
Proof.
  rewrite iter_markdown_files_filter. intros [= <-].
  apply Forall_forall. intros p Hp. apply filter_In in Hp as [Hp _].
  now apply rglob_below in Hp.
Qed.

Lemma make_groups_files (src : path) (depth : Z) (files : list path)
  (g g' : list (str * list path)) :
  make_groups src depth files g = Ok g' ->
  forall k f, In f (group_files k g') -> In f (group_files k g) \/ In f files.
Proof.
  revert g; induction files as [|f0 files IH]; intros g; cbn [make_groups].
  - intros [= <-]. auto.
  - destruct (group_key_for f0 src depth) as [k0|]; [|discriminate].
    intros Hg k f Hin. apply (IH _ Hg) in Hin as [Hin|Hin]; [|right; now right].
    rewrite setdefault_files in Hin.
    destruct (str_eqb k0 k); [|now left].
    apply in_app_or in Hin as [Hin|[<-|[]]]; [now left|right; now left].
Qed.

Lemma build_list_markdown_ext `{StrCase} (fs fs' : node) (files : list path)
  (target src : path) (by_ : group_mode) (depth level : Z) (mode : case_mode) :
  (forall f, In f files -> title_for fs' f = title_for fs f) ->
  build_list_markdown fs' files target src by_ depth level mode
  = build_list_markdown fs files target src by_ depth level mode.
Proof.
  intros Ht.
  assert (Hitem : forall f, In f files ->
            list_item fs' (parent target) f = list_item fs (parent target) f).
  { intros f Hf. unfold list_item. now rewrite (Ht f Hf). }
  unfold build_list_markdown. destruct by_.
  - now rewrite (map_ext_in _ _ files Hitem).
  - destruct (make_groups src depth files []) as [g|e] eqn:Hg; [|reflexivity].
    do 2 f_equal. unfold group_lines. apply flat_map_ext. intros k.
    f_equal. f_equal. apply map_ext_in. intros f Hf. apply Hitem.
    destruct (make_groups_files src depth files [] g Hg k f Hf) as [[]|Hin].
    exact Hin.
Qed.

(** ** The run *)

Lemma replace_between_markers_raises (content s e r : str) :
  (forall p m q, content <> p ++ s ++ m ++ e ++ q) ->
  replace_between_markers content s e r = Raise (RuntimeError (markers_not_found s e)).
Proof.
  intros Hno. unfold replace_between_markers.
  destruct (search (marker_pattern s e) content) as [m|] eqn:Hs; [|reflexivity].
  apply search_marker_sound in Hs as (pre & mid & post & Hc & _).
  now apply Hno in Hc.
Qed.

Lemma replace_between_markers_flag (content s e r u : str) (changed : bool) :
  replace_between_markers content s e r = Ok (u, changed) ->
  changed = negb (str_eqb u content).
Proof.
  unfold replace_between_markers.
  destruct (search (marker_pattern s e) content); [|discriminate].
  now intros [= <- <-].
Qed.

Lemma sorted_by_below `{StrCase} (fs : node) (mode : sort_mode) (src : path)
  (found : list path) :
  Forall (fun f => exists rel, f = src ++ rel) found ->
  Forall (fun f => exists rel, f = src ++ rel)
         (sorted_by key_ltb (sort_key fs mode) found).
Proof.
  intros Hf. eapply Permutation_Forall; [apply sorted_by_perm|exact Hf].
Qed.

Lemma build_list_markdown_total `{StrCase} (fs : node) (files : list path)
  (target src : path) (by_ : group_mode) (depth level : Z) (mode : case_mode) :
  Forall (fun f => exists rel, f = src ++ rel) files ->
  exists md, build_list_markdown fs files target src by_ depth level mode = Ok md.
Proof.
  intros Hf. destruct by_.
  - eexists. reflexivity.
  - destruct (make_groups_spec src depth files [] Hf) as (g & Hg & _).
    unfold build_list_markdown. rewrite Hg. eexists. reflexivity.
Qed.

(** Once both paths exist and the target can be read, the scan and the
    rendering go through and the outcome is decided by the
    substitution. *)
Lemma main_run `{StrCase} (a : args) (cwd : path) (now : Z) (fs : node)
  (original : str) :
  exists_ fs (resolve cwd (src_dir a)) = true ->
  read_text fs (resolve cwd (target_file a)) = Ok original ->
  exists found list_md,
    iter_markdown_files fs (resolve cwd (src_dir a)) (exclude a)
      (parse_extensions (extensions a)) = Ok found
    /\ build_list_markdown fs (sorted_by key_ltb (sort_key fs (sort a)) found)
         (resolve cwd (target_file a)) (resolve cwd (src_dir a))
         (group_by a) (group_depth a) (group_heading_level a)
         (group_title_case a) = Ok list_md
    /\ main a cwd now fs =
       match replace_between_markers original (marker_start a) (marker_end a)
               list_md with
       | Raise (RuntimeError e) => Exit 3 [(Stderr, CROSS :: py " " ++ e)] fs
       | Raise e => Uncaught e
       | Ok (updated, changed) =>
           if changed then
             match write_text (resolve cwd (target_file a)) updated now fs with
             | None => Uncaught OSError
             | Some fs' =>
                 Exit (if no_fail_on_change a then 0 else 1)
                   [(Stdout,
                     CYCLE :: py " Updated " ++ as_posix (resolve cwd (target_file a))
                     ++ py " between markers " ++ marker_start a
                     ++ py " " ++ [ELLIPSIS] ++ py " " ++ marker_end a)]
                   fs'
             end
           else Exit 0 no_changes_needed fs
       end.
Proof.
  intros Hsrc Hread.
  assert (Htgt : exists_ fs (resolve cwd (target_file a)) = true).
  { unfold exists_. unfold read_text in Hread.
    now destruct (lookup (resolve cwd (target_file a)) fs). }
  destruct (iter_markdown_files fs (resolve cwd (src_dir a)) (exclude a)
              (parse_extensions (extensions a))) as [found|e] eqn:Hiter.
  2:{ rewrite iter_markdown_files_filter in Hiter. discriminate. }
  pose proof (iter_markdown_files_below _ _ _ _ _ Hiter) as Hbelow.
  destruct (build_list_markdown_total fs
              (sorted_by key_ltb (sort_key fs (sort a)) found)
              (resolve cwd (target_file a)) (resolve cwd (src_dir a))
              (group_by a) (group_depth a) (group_heading_level a)
              (group_title_case a) (sorted_by_below fs (sort a) _ found Hbelow))
    as (list_md & Hbuild).
  exists found, list_md. split; [reflexivity|]. split; [exact Hbuild|].
  unfold main. rewrite Hsrc, Htgt. cbn [negb]. rewrite Hiter, Hbuild, Hread.
  reflexivity.
Qed.



(** ** Running twice *)

Lemma read_text_no_cr (fs : node) (p : path) (text : str) :
  read_text fs p = Ok text -> ~ In CR text.
Proof.
  unfold read_text. destruct (lookup p fs) as [[[t|] m|m es]|]; try discriminate.
  intros [= <-]. apply universal_newlines_no_cr.
Qed.

Lemma read_text_file (fs : node) (p : path) (text : str) :
  read_text fs p = Ok text -> exists d t, lookup p fs = Some (File d t).
Proof.
  unfold read_text. destruct (lookup p fs) as [[d m|m es]|]; try discriminate.
  intros _. now exists d, m.
Qed.

Lemma replace_between_markers_shape (content s e r u : str) (changed : bool) :
  replace_between_markers content s e r = Ok (u, changed) ->
  exists pre mid post,
    content = pre ++ s ++ mid ++ e ++ post
    /\ u = pre ++ s ++ [LF] ++ r ++ e ++ post.
Proof.
  intros Hrep. unfold replace_between_markers in Hrep.
  destruct (search (marker_pattern s e) content) as [m|] eqn:Hs; [|discriminate].
  fold (replace_between_markers content s e r) in Hrep.
  destruct (replace_between_markers_found content s e r m Hs)
    as (pre & mid & post & Hc & _ & _ & Hr).
  exists pre, mid, post. split; [exact Hc|].
  unfold replace_between_markers in Hr. rewrite Hs in Hr.
  rewrite Hr in Hrep. now injection Hrep as <- _.
Qed.

Lemma replace_between_markers_no_cr (content s e r u : str) (changed : bool) :
  replace_between_markers content s e r = Ok (u, changed) ->
  ~ In CR content -> ~ In CR r -> ~ In CR u.
Proof.
  intros Hrep Hc Hr.
  apply replace_between_markers_shape in Hrep as (pre & mid & post & -> & ->).
  rewrite !in_app_iff in *. simpl. unfold LF, CR. intuition discriminate.
Qed.

(** C3, as the script implements it.  After a run that ended with status
    0 or 1, a second run on the tree it left prints that no changes are
    needed and returns 0, and its substitution reports no change,
    provided that the target file is not inside the source directory,
    that the end marker does not occur in the inserted text (a newline,
    the list and the end marker) before its own place, and that the list
    holds no carriage return. *)
Theorem second_run_reports_no_change `{StrCase} (a : args) (cwd : path)
  (now now' : Z) (fs fs1 : node) (st : Z) (pr : list (stream * str))
  (found : list path) (list_md : str) :
  main a cwd now fs = Exit st pr fs1 ->
  st <> 2%Z -> st <> 3%Z ->
  iter_markdown_files fs (resolve cwd (src_dir a)) (exclude a)
    (parse_extensions (extensions a)) = Ok found ->
  build_list_markdown fs (sorted_by key_ltb (sort_key fs (sort a)) found)
    (resolve cwd (target_file a)) (resolve cwd (src_dir a))
    (group_by a) (group_depth a) (group_heading_level a)
    (group_title_case a) = Ok list_md ->
  strip_prefix (resolve cwd (src_dir a)) (resolve cwd (target_file a)) = None ->
  (forall m q, (LF :: list_md) ++ marker_end a = m ++ marker_end a ++ q ->
               length (LF :: list_md) <= length m) ->
  ~ In CR list_md ->
  main a cwd now' fs1 = Exit 0 no_changes_needed fs1
  /\ exists original',
      read_text fs1 (resolve cwd (target_file a)) = Ok original'
      /\ replace_between_markers original' (marker_start a) (marker_end a) list_md
         = Ok (original', false).
Proof.
  intros Hmain H2 H3 Hiter Hbuild Hout Hend Hcr.
  assert (Hsrc : exists_ fs (resolve cwd (src_dir a)) = true).
  { destruct (exists_ fs (resolve cwd (src_dir a))) eqn:E; [reflexivity|].
    unfold main in Hmain. rewrite E in Hmain. cbn [negb] in Hmain.
    injection Hmain as <- _ _. congruence. }
  assert (Htgt : exists_ fs (resolve cwd (target_file a)) = true).
  { destruct (exists_ fs (resolve cwd (target_file a))) eqn:E; [reflexivity|].
    unfold main in Hmain. rewrite Hsrc, E in Hmain. cbn [negb] in Hmain.
    injection Hmain as <- _ _. congruence. }
  destruct (read_text fs (resolve cwd (target_file a))) as [original|e] eqn:Hread.
  2:{ unfold main in Hmain.
      rewrite Hsrc, Htgt, Hiter, Hbuild, Hread in Hmain. discriminate. }
  destruct (main_run a cwd now fs original Hsrc Hread)
    as (found0 & md0 & Hiter0 & Hbuild0 & Hrun).
  rewrite Hiter in Hiter0. injection Hiter0 as <-.
  rewrite Hbuild in Hbuild0. injection Hbuild0 as <-.
  rewrite Hrun in Hmain.
  destruct (replace_between_markers original (marker_start a) (marker_end a)
              list_md) as [[updated changed]|e] eqn:Hrep.
  2:{ destruct e; try discriminate. injection Hmain as <- _ _. congruence. }
  destruct changed.
  - destruct (write_text (resolve cwd (target_file a)) updated now fs)
      as [fs'|] eqn:Hw; [|discriminate].
    injection Hmain as _ _ <-.
    destruct (read_text_file _ _ _ Hread) as (d & t & Hfile).
    destruct (write_text_ok _ updated now fs d t Hfile) as (fs'' & Hw' & Hl).
    rewrite Hw in Hw'. injection Hw' as <-.
    assert (Hsame : lookup (resolve cwd (src_dir a)) fs'
                    = lookup (resolve cwd (src_dir a)) fs)
      by exact (write_text_other _ _ updated now fs fs' d t Hout Hfile Hw).
    pose proof (below_agree fs fs' _ Hsame) as Hbelow.
    assert (Hupd : ~ In CR updated).
    { eapply replace_between_markers_no_cr; [exact Hrep| |exact Hcr].
      exact (read_text_no_cr _ _ _ Hread). }
    assert (Hread' : read_text fs' (resolve cwd (target_file a)) = Ok updated).
    { unfold read_text. rewrite Hl. now rewrite universal_newlines_id. }
    assert (Hsrc' : exists_ fs' (resolve cwd (src_dir a)) = true).
    { unfold exists_ in *. now rewrite Hsame. }
    assert (Hagain : replace_between_markers updated (marker_start a)
                       (marker_end a) list_md = Ok (updated, false))
      by exact (replace_between_markers_again _ _ _ _ _ _ Hrep Hend).
    split; [|exists updated; split; [exact Hread'|exact Hagain]].
    destruct (main_run a cwd now' fs' updated Hsrc' Hread')
      as (found1 & md1 & Hiter1 & Hbuild1 & Hrun1).
    rewrite (iter_markdown_files_ext fs fs' _ _ _ Hsame), Hiter in Hiter1.
    injection Hiter1 as <-.
    pose proof (iter_markdown_files_below _ _ _ _ _ Hiter) as Hfound.
    assert (Hsorted : sorted_by key_ltb (sort_key fs' (sort a)) found
                      = sorted_by key_ltb (sort_key fs (sort a)) found).
    { apply sorted_by_ext_in. intros p Hp.
      rewrite Forall_forall in Hfound. destruct (Hfound p Hp) as (rel & ->).
      apply sort_key_ext, Hbelow. }
    rewrite Hsorted in Hbuild1.
    rewrite (build_list_markdown_ext fs fs') in Hbuild1.
    2:{ intros f Hf.
        pose proof (sorted_by_below fs (sort a) _ found Hfound) as Hb.
        rewrite Forall_forall in Hb. destruct (Hb f Hf) as (rel & ->).
        apply title_for_ext, Hbelow. }
    rewrite Hbuild in Hbuild1. injection Hbuild1 as <-.
    rewrite Hrun1, Hagain. reflexivity.
  - injection Hmain as _ _ <-.
    pose proof (replace_between_markers_flag _ _ _ _ _ _ Hrep) as Hflag.
    symmetry in Hflag. apply negb_false_iff, str_eqb_eq in Hflag. subst updated.
    split; [|exists original; split; [exact Hread|exact Hrep]].
    destruct (main_run a cwd now' fs original Hsrc Hread)
      as (found1 & md1 & Hiter1 & Hbuild1 & Hrun1).
    rewrite Hiter in Hiter1. injection Hiter1 as <-.
    rewrite Hbuild in Hbuild1. injection Hbuild1 as <-.
    rewrite Hrun1, Hrep. reflexivity.
Qed.

(** C3 fails as stated.  On each of three trees a first run rewrites the
    target and a second run rewrites it again: when the index lies inside
    the scanned directory and takes its title from the text between the
    markers, when a title holds the end marker, and when a file name holds
    a carriage return.  With [--no-fail-on-change] both runs return 0, and
    the second still reports an update. *)
Lemma second_run_changes_again_counterexample :
  (status_of (main index_inside_args [] 1 index_inside) = Some 1%Z
   /\ status_of (main index_inside_args [] 2
                   (tree_of (main index_inside_args [] 1 index_inside)
                      index_inside)) = Some 1%Z)
  /\ (status_of (main default_args [] 1 title_with_marker) = Some 1%Z
      /\ status_of (main default_args [] 2
                      (tree_of (main default_args [] 1 title_with_marker)
                         title_with_marker)) = Some 1%Z)
  /\ (status_of (main default_args [] 1 name_with_cr) = Some 1%Z
      /\ status_of (main default_args [] 2
                      (tree_of (main default_args [] 1 name_with_cr)
                         name_with_cr)) = Some 1%Z)
  /\ (status_of (main (quiet index_inside_args) [] 1 index_inside) = Some 0%Z
      /\ status_of (main (quiet index_inside_args) [] 2
                      (tree_of (main (quiet index_inside_args) [] 1 index_inside)
                         index_inside)) = Some 0%Z
      /\ reports_no_change
           (main (quiet index_inside_args) [] 2
              (tree_of (main (quiet index_inside_args) [] 1 index_inside)
                 index_inside)) = false).
Proof. repeat split; vm_compute; reflexivity. Qed.

Lemma end_marker_last_by_find (r e : str) :
  find e ((LF :: r) ++ e) = Some (length (LF :: r)) ->
  forall m q, (LF :: r) ++ e = m ++ e ++ q -> length (LF :: r) <= length m.
Proof.
  intros Hf. apply find_Some in Hf as (mid & post & _ & _ & Hmin). exact Hmin.
Qed.

Lemma not_in_by_mem (c : N) (s : str) : mem_chr c s = false -> ~ In c s.
Proof.
  unfold mem_chr. intros Hm Hin.
  assert (Ht : existsb (N.eqb c) s = true)
    by (apply existsb_exists; exists c; split; [exact Hin|apply N.eqb_refl]).
  congruence.
Qed.

Lemma second_run_reports_no_change_witness :
  main default_args [] 2 (tree_of (main default_args [] 1 grouping_tree) grouping_tree)
  = Exit 0 no_changes_needed
      (tree_of (main default_args [] 1 grouping_tree) grouping_tree)
  /\ exists original',
      read_text (tree_of (main default_args [] 1 grouping_tree) grouping_tree)
        (resolve [] (target_file default_args)) = Ok original'
      /\ replace_between_markers original' (marker_start default_args)
           (marker_end default_args)
           (py "- [DB Choice](docs/adr/db/001.md)\n- [API Style](docs/adr/api/002.md)\n- [Root ADR](docs/adr/003.md)\n")
         = Ok (original', false).
Proof.
  apply (second_run_reports_no_change default_args [] 1 2 grouping_tree
           (tree_of (main default_args [] 1 grouping_tree) grouping_tree) 1
           [(Stdout,
             CYCLE :: py " Updated /README.md between markers <!--adrlist--> "
             ++ [ELLIPSIS] ++ py " <!--adrliststop-->")]
           [adr ++ [py "003.md"]; adr ++ [py "db"; py "001.md"];
            adr ++ [py "api"; py "002.md"]]).
  - vm_compute. reflexivity.
  - discriminate.
  - discriminate.
  - vm_compute. reflexivity.
  - vm_compute. reflexivity.
  - vm_compute. reflexivity.
  - apply end_marker_last_by_find. vm_compute. reflexivity.
  - apply not_in_by_mem. vm_compute. reflexivity.
Defined.

(** * Further properties of the script *)

(** ** Marker substitution: failure and repetition *)

(** [replace_between_markers] raises exactly when the content holds no
    start marker with an end marker after it, and the only exception it
    raises is the [RuntimeError] that names both markers. *)
Theorem replace_between_markers_raises_iff (content s e r : str) :
  (replace_between_markers content s e r
   = Raise (RuntimeError (markers_not_found s e))
   <-> forall p m q, content <> p ++ s ++ m ++ e ++ q)
  /\ (forall err, replace_between_markers content s e r = Raise err ->
                  err = RuntimeError (markers_not_found s e))
  /\ ((exists p m q, content = p ++ s ++ m ++ e ++ q) ->
      exists u changed, replace_between_markers content s e r = Ok (u, changed)).
Proof.
  split; [split|split].
  - intros Hraise p m q Hc.
    unfold replace_between_markers in Hraise.
    destruct (search (marker_pattern s e) content) as [m0|] eqn:Hs; [discriminate|].
    unfold search in Hs. rewrite Hc in Hs.
    now apply search_marker_complete in Hs.
  - apply replace_between_markers_raises.
  - intros err. unfold replace_between_markers.
    destruct (search (marker_pattern s e) content); [discriminate|].
    now intros [= <-].
  - intros (p & m & q & Hc). unfold replace_between_markers.
    destruct (search (marker_pattern s e) content) as [m0|] eqn:Hs.
    + eexists. eexists. reflexivity.
    + exfalso. unfold search in Hs. rewrite Hc in Hs.
      now apply search_marker_complete in Hs.
Qed.

Lemma rematch_same_start (content s e r : str)
  (pre mid post pre2 mid2 post2 : str) :
  content = pre ++ s ++ mid ++ e ++ post ->
  (forall p m q, content = p ++ s ++ m ++ e ++ q -> length pre <= length p) ->
  pre2 ++ s ++ mid2 ++ e ++ post2 = pre ++ s ++ (LF :: r) ++ e ++ post ->
  (forall p m q, pre ++ s ++ (LF :: r) ++ e ++ post = p ++ s ++ m ++ e ++ q ->
                 length pre2 <= length p) ->
  pre2 = pre /\ mid2 ++ e ++ post2 = (LF :: r) ++ e ++ post.
Proof.
  intros Hc Hpre Hu2 Hpre2.
  assert (Hlen : length pre2 = length pre).
  { apply Nat.le_antisymm; [exact (Hpre2 pre (LF :: r) post eq_refl)|].
    destruct (Nat.le_gt_cases (length pre) (length pre2)) as [Hle|Hlt];
      [exact Hle|exfalso].
    destruct (app_prefix_shorter _ pre2 pre _ _ Hu2) as (d & Hd & Hrest); [lia|].
    destruct (occurrence_shift s d _ _ Hrest) as (d' & Hd' & _).
    assert (Hc' : content = pre2 ++ s ++ (d' ++ mid) ++ e ++ post).
    { rewrite Hc, Hd. rewrite <- !app_assoc.
      rewrite (app_assoc d s), Hd'. now rewrite <- !app_assoc. }
    apply Hpre in Hc'. lia. }
  apply app_same_length in Hu2 as [-> Hu2]; [|exact Hlen].
  split; [reflexivity|]. now apply app_inv_head in Hu2.
Qed.

(** After one substitution, substituting the same replacement again
    reports no change if and only if the end marker does not occur in
    the inserted text (a newline, the replacement and the end marker)
    before its own place.  This is the general form of the repetition
    that the test suite checks on one input. *)
Theorem replace_between_markers_idempotent_iff (content s e r u : str)
  (changed : bool) :
  replace_between_markers content s e r = Ok (u, changed) ->
  (replace_between_markers u s e r = Ok (u, false)
   <-> forall m q, (LF :: r) ++ e = m ++ e ++ q -> length (LF :: r) <= length m).
Proof.
  intros Hfirst. split; [|exact (replace_between_markers_again _ _ _ _ _ _ Hfirst)].
  intros Hsecond m q Hm.
  unfold replace_between_markers in Hfirst.
  destruct (search (marker_pattern s e) content) as [m1|] eqn:Hs1; [|discriminate].
  fold (replace_between_markers content s e r) in Hfirst.
  destruct (replace_between_markers_found content s e r m1 Hs1)
    as (pre & mid & post & Hc & Hpre & _ & Hr).
  unfold replace_between_markers in Hr. rewrite Hs1 in Hr.
  rewrite Hr in Hfirst. injection Hfirst as Hu _.
  unfold replace_between_markers in Hsecond.
  destruct (search (marker_pattern s e) u) as [m2|] eqn:Hs2; [|discriminate].
  fold (replace_between_markers u s e r) in Hsecond.
  destruct (replace_between_markers_found u s e r m2 Hs2)
    as (pre2 & mid2 & post2 & Hu2 & Hpre2 & Hmid2 & Hr2).
  unfold replace_between_markers in Hr2. rewrite Hs2 in Hr2.
  rewrite Hr2 in Hsecond. injection Hsecond as Hnew _.
  subst u. cbn [app] in Hu2.
  destruct (rematch_same_start content s e r pre mid post pre2 mid2 post2
              Hc Hpre (eq_sym Hu2)) as (-> & Hrest).
  { intros p m' q' Hd. apply (Hpre2 p m' q'). exact Hd. }
  assert (Hlen : length mid2 = length (LF :: r)).
  { rewrite Hu2 in Hnew. cbn [app] in Hnew.
    apply app_inv_head in Hnew. apply app_inv_head in Hnew.
    apply (f_equal (@length N)) in Hnew.
    change (LF :: r ++ e ++ post2) with ((LF :: r) ++ e ++ post2) in Hnew.
    rewrite !length_app in Hnew. lia. }
  rewrite <- Hlen. apply (Hmid2 m (q ++ post)).
  rewrite Hrest. rewrite (app_assoc (LF :: r) e post), Hm.
  now rewrite <- !app_assoc.
Qed.

Lemma replace_between_markers_idempotent_iff_witness :
  replace_between_markers (py "a<!--s-->b<!--e-->c<!--e-->") (py "<!--s-->")
    (py "<!--e-->") (py "new\n")
  = Ok (py "a<!--s-->\nnew\n<!--e-->c<!--e-->", true)
  /\ (replace_between_markers (py "a<!--s-->\nnew\n<!--e-->c<!--e-->")
        (py "<!--s-->") (py "<!--e-->") (py "new\n")
      = Ok (py "a<!--s-->\nnew\n<!--e-->c<!--e-->", false)
      <-> forall m q,
          (LF :: py "new\n") ++ py "<!--e-->" = m ++ py "<!--e-->" ++ q ->
          length (LF :: py "new\n") <= length m).
Proof.
  split; [vm_compute; reflexivity|].
  apply (replace_between_markers_idempotent_iff
           (py "a<!--s-->b<!--e-->c<!--e-->") (py "<!--s-->") (py "<!--e-->")
           (py "new\n") (py "a<!--s-->\nnew\n<!--e-->c<!--e-->") true).
  vm_compute. reflexivity.
Defined.

(** ** Normalized patterns *)

Lemma lstrip_with_In (p : N -> bool) (s : str) (c : N) :
  In c (lstrip_with p s) -> In c s.
Proof.
  induction s as [|x s IH]; simpl; [auto|].
  destruct (p x); [intros H; right; now apply IH|auto].
Qed.

Lemma lstrip_with_head (p : N -> bool) (s : str) (c : N) (r : str) :
  lstrip_with p s = c :: r -> p c = false.
Proof.
  induction s as [|x s IH]; simpl; [discriminate|].
  destruct (p x) eqn:Hx; [exact IH|]. now intros [= <- _].
Qed.

Lemma lstrip_with_fixed (p : N -> bool) (s : str) :
  lstrip_with p (lstrip_with p s) = lstrip_with p s.
Proof.
  destruct (lstrip_with p s) as [|c r] eqn:Hs; [reflexivity|].
  simpl. now rewrite (lstrip_with_head p s c r Hs).
Qed.

Lemma replace_chr_absent (old : N) (new s : str) :
  ~ In old s -> replace_chr old new s = s.
Proof.
  unfold replace_chr. induction s as [|c s IH]; simpl; [reflexivity|].
  intros Hn. destruct (N.eqb_spec c old) as [->|Hc]; [exfalso; apply Hn; now left|].
  simpl. f_equal. apply IH. intros H. apply Hn. now right.
Qed.

Lemma replace_chr_removes (old : N) (new s : str) :
  ~ In old new -> ~ In old (replace_chr old new s).
Proof.
  unfold replace_chr. intros Hnew Hin. apply in_flat_map in Hin as (c & _ & Hc).
  destruct (N.eqb c old) eqn:E; [now apply Hnew|].
  destruct Hc as [Hc|[]]. subst c. now rewrite N.eqb_refl in E.
Qed.

(** A normalized pattern holds no backslash and does not start with a dot
    or a slash, and normalizing it again changes nothing. *)
Theorem normalize_glob_normal (pat : str) :
  ~ In BACKSLASH (normalize_glob pat)
  /\ (forall c r, normalize_glob pat = c :: r -> c <> DOT /\ c <> SLASH)
  /\ normalize_glob (normalize_glob pat) = normalize_glob pat.
Proof.
  assert (Hno : ~ In BACKSLASH (normalize_glob pat)).
  { unfold normalize_glob, lstrip_chars. intros Hin.
    apply lstrip_with_In in Hin. revert Hin. apply replace_chr_removes.
    intros [H|[]]. discriminate. }
  split; [exact Hno|]. split.
  - intros c r Hc. unfold normalize_glob, lstrip_chars in Hc.
    apply lstrip_with_head in Hc. unfold mem_chr in Hc.
    split; intros Heq; rewrite Heq in Hc; vm_compute in Hc; discriminate.
  - unfold normalize_glob at 1.
    rewrite (replace_chr_absent _ _ _ Hno).
    unfold normalize_glob, lstrip_chars. apply lstrip_with_fixed.
Qed.

(** ** Group keys *)

(** A file directly in the source directory has the empty key whatever
    the depth; a file in subdirectories has the first [depth] of them,
    joined by slashes, for a positive depth (the first one for depth 1),
    the empty key for depth 0, and all but the last [-depth] for a
    negative depth; a path outside the source directory raises
    [ValueError]. *)
Theorem group_key_for_cases (src : path) (depth : Z) :
  (forall nm, group_key_for (src ++ [nm]) src depth = Ok [])
  /\ (forall d dirs nm,
         (0 <= depth)%Z ->
         group_key_for (src ++ d :: dirs ++ [nm]) src depth
         = Ok (join [SLASH] (firstn (Z.to_nat depth) (d :: dirs))))
  /\ (forall d dirs nm, group_key_for (src ++ d :: dirs ++ [nm]) src 1 = Ok d)
  /\ (forall d dirs nm, group_key_for (src ++ d :: dirs ++ [nm]) src 0 = Ok [])
  /\ (forall d dirs nm,
         (depth < 0)%Z ->
         group_key_for (src ++ d :: dirs ++ [nm]) src depth
         = Ok (join [SLASH]
                 (firstn (length (d :: dirs) - Z.to_nat (- depth)) (d :: dirs))))
  /\ (forall p, strip_prefix src p = None ->
                group_key_for p src depth = Raise ValueError).
Proof.
  assert (Hdirs : forall d dirs nm dp,
             group_key_for (src ++ d :: dirs ++ [nm]) src dp
             = Ok (join [SLASH] (slice_to (d :: dirs) dp))).
  { intros d dirs nm dp. unfold group_key_for. rewrite relative_to_app.
    change (d :: dirs ++ [nm]) with ((d :: dirs) ++ [nm]).
    rewrite removelast_last. reflexivity. }
  split; [|split; [|split; [|split; [|split]]]].
  - intros nm. unfold group_key_for. now rewrite relative_to_app.
  - intros d dirs nm Hd. rewrite Hdirs. unfold slice_to.
    apply Z.leb_le in Hd. now rewrite Hd.
  - intros d dirs nm. rewrite Hdirs. reflexivity.
  - intros d dirs nm. rewrite Hdirs. reflexivity.
  - intros d dirs nm Hd. rewrite Hdirs. unfold slice_to.
    apply Z.leb_gt in Hd. now rewrite Hd.
  - intros p Hp. unfold group_key_for, relative_to. now rewrite Hp.
Qed.

Lemma group_key_for_cases_witness :
  group_key_for (adr ++ [py "db"; py "pg"; py "001.md"]) adr 2 = Ok (py "db/pg")
  /\ group_key_for (adr ++ [py "db"; py "pg"; py "001.md"]) adr (-1) = Ok (py "db")
  /\ group_key_for [py "README.md"] adr 2 = Raise ValueError.
Proof.
  destruct (group_key_for_cases adr 2) as (_ & Hpos & _ & _ & _ & Hout).
  destruct (group_key_for_cases adr (-1)) as (_ & _ & _ & _ & Hneg & _).
  split; [|split].
  - apply (Hpos (py "db") [py "pg"] (py "001.md")). lia.
  - apply (Hneg (py "db") [py "pg"] (py "001.md")). lia.
  - apply Hout. reflexivity.
Defined.

(** ** List items *)

Lemma replace_brackets_once (title : str) :
  replace_chr RBRACKET (py "\\]") (replace_chr LBRACKET (py "\\[") title)
  = escape_brackets title.
Proof.
  unfold replace_chr, escape_brackets.
  induction title as [|c title IH]; [reflexivity|].
  cbn [flat_map]. rewrite flat_map_app, IH. f_equal.
  destruct (N.eqb_spec c LBRACKET) as [->|Hl]; [reflexivity|].
  cbn [flat_map orb app].
  destruct (N.eqb_spec c RBRACKET) as [Hr|Hr]; [rewrite Hr|]; reflexivity.
Qed.

Lemma escape_brackets_guarded (title : str) :
  forall a c b,
    escape_brackets title = a ++ c :: b ->
    c = LBRACKET \/ c = RBRACKET ->
    exists a', a = a' ++ [BACKSLASH].
Proof.
  unfold escape_brackets. induction title as [|x title IH]; intros a c b Heq Hc.
  - destruct a; discriminate.
  - cbn [flat_map] in Heq.
    destruct (N.eqb x LBRACKET || N.eqb x RBRACKET) eqn:Hx.
    + destruct a as [|y1 [|y2 a]]; cbn [app] in Heq.
      * injection Heq as <- _. destruct Hc as [Hc|Hc]; discriminate.
      * injection Heq as <- _ _. now exists [].
      * injection Heq as <- <- Heq.
        destruct (IH a c b Heq Hc) as (a' & ->).
        now exists (BACKSLASH :: x :: a').
    + destruct a as [|y a]; cbn [app] in Heq.
      * injection Heq as <- _. exfalso.
        destruct Hc as [-> | ->]; vm_compute in Hx; discriminate.
      * injection Heq as <- Heq.
        destruct (IH a c b Heq Hc) as (a' & ->).
        now exists (x :: a').
Qed.

(** A list item is [- [], the title with a backslash put before each
    square bracket, [](], the relative path of the file and [)]: the two
    successive replacements of the script escape every bracket once, and
    in the escaped title each bracket has a backslash right before it. *)
Theorem list_item_escapes_brackets (fs : node) (target_dir f : path) :
  list_item fs target_dir f
  = py "- [" ++ escape_brackets (title_for fs f) ++ py "]("
    ++ relpath f target_dir ++ py ")"
  /\ (forall a c b,
         escape_brackets (title_for fs f) = a ++ c :: b ->
         c = LBRACKET \/ c = RBRACKET ->
         exists a', a = a' ++ [BACKSLASH]).
Proof.
  split.
  - unfold list_item. now rewrite replace_brackets_once.
  - apply escape_brackets_guarded.
Qed.

(** ** Headings and titles *)

(** The search with [H1_REGEX] amounts to a scan of the lines: [first_h1]
    returns the trimmed text of the first line made of optional blanks, a
    [#], one blank and at least one more character, and [None] when the
    text has no such line. *)
Theorem first_h1_by_lines (text : str) :
  first_h1 text = option_map strip (first_some heading_text (split_chr LF text))
  /\ (forall line X,
         heading_text line = Some X <->
         exists ind w, line = ind ++ HASH :: w :: X
                       /\ forallb blank ind = true /\ blank w = true /\ X <> []).
Proof.
  split.
  - now rewrite first_h1_spec, first_heading_lines.
  - intros line X. split; [apply heading_text_inv|].
    intros (ind & w & -> & Hind & Hw & HX). now apply heading_text_intro.
Qed.

Lemma rstrip_with_In (p : N -> bool) (s : str) (c : N) :
  In c (rstrip_with p s) -> In c s.
Proof.
  unfold rstrip_with. intros H. apply in_rev in H.
  apply lstrip_with_In in H. now apply in_rev.
Qed.

Lemma strip_In (s : str) (c : N) : In c (strip s) -> In c s.
Proof.
  unfold strip. intros H. apply rstrip_with_In in H. now apply lstrip_with_In in H.
Qed.

Lemma split_go_no_sep (sep : N) (s cur : str) :
  ~ In sep cur -> forall l, In l (split_go sep cur s) -> ~ In sep l.
Proof.
  revert cur; induction s as [|c s IH]; intros cur Hcur l; simpl.
  - intros [<-|[]] H. apply Hcur. now apply in_rev.
  - destruct (N.eqb_spec c sep) as [Hc|Hc].
    + intros [<-|Hl].
      * intros H. apply Hcur. now apply in_rev.
      * apply (IH [] (fun H => H) l Hl).
    + apply IH. intros [H|H]; [congruence|now apply Hcur].
Qed.

Lemma splitlines_go_no_break (s cur : str) (skip : bool) :
  (forall c, In c cur -> is_linebreak c = false) ->
  forall l, In l (splitlines_go cur skip s) ->
            forall c, In c l -> is_linebreak c = false.
Proof.
  revert cur skip; induction s as [|x s IH]; intros cur skip Hcur l; simpl.
  - destruct cur as [|y cur]; [contradiction|].
    intros [<-|[]] c Hc. apply Hcur. now apply in_rev.
  - destruct (skip && (x =? LF)%N); [now apply IH|].
    destruct (is_linebreak x) eqn:Hx.
    + intros [<-|Hl].
      * intros c Hc. apply Hcur. now apply in_rev.
      * apply (IH [] _ (fun c H => match H with end) l Hl).
    + apply IH. intros c [<-|Hc]; [exact Hx|now apply Hcur].
Qed.

Lemma first_nonblank_Some (lines : list str) (t : str) :
  first_nonblank lines = Some t ->
  exists l, In l lines /\ t = strip l /\ t <> [].
Proof.
  induction lines as [|l lines IH]; simpl; [discriminate|].
  destruct (strip l) as [|c r] eqn:Hl.
  - intros H. destruct (IH H) as (l' & Hin & Ht). exists l'. auto.
  - intros [= <-]. exists l. rewrite Hl. repeat split; auto. discriminate.
Qed.

Lemma title_of_text_cases (stem_ text : str) :
  title_of_text stem_ text = stem_
  \/ title_of_text stem_ text <> []
     /\ ((exists line X, In line (split_chr LF text)
                         /\ heading_text line = Some X
                         /\ title_of_text stem_ text = strip X)
         \/ (exists l, In l (splitlines text)
                       /\ title_of_text stem_ text = strip l)).
Proof.
  unfold title_of_text. rewrite first_h1_spec, first_heading_lines.
  destruct (first_some heading_text (split_chr LF text)) as [X|] eqn:HX; simpl.
  - destruct (strip X) as [|c h] eqn:Hs.
    + destruct (first_nonblank (splitlines text)) as [t|] eqn:Ht; [|now left].
      apply first_nonblank_Some in Ht as (l & Hin & -> & Hne).
      right. split; [exact Hne|]. right. now exists l.
    + right. split; [discriminate|]. left.
      apply first_some_Some in HX as (line & Hin & Hline).
      exists line, X. now rewrite Hs.
  - destruct (first_nonblank (splitlines text)) as [t|] eqn:Ht; [|now left].
    apply first_nonblank_Some in Ht as (l & Hin & -> & Hne).
    right. split; [exact Hne|]. right. now exists l.
Qed.

(** A title is never empty and never spans lines, as long as the stem of
    the file name is not empty and holds no newline: whatever the file
    holds, and whether or not it can be read. *)
Theorem title_for_one_nonempty_line (fs : node) (p : path) :
  stem p <> [] -> ~ In LF (stem p) ->
  title_for fs p <> [] /\ ~ In LF (title_for fs p).
Proof.
  intros Hne Hlf. unfold title_for.
  destruct (read_text fs p) as [text|e]; [|auto].
  destruct (title_of_text_cases (stem p) text) as [-> | (Hnonempty & Hfrom)];
    [auto|].
  split; [exact Hnonempty|].
  destruct Hfrom as [(line & X & Hin & Hline & ->)|(l & Hin & ->)].
  - intros H. apply strip_In in H.
    apply heading_text_inv in Hline as (ind & w & -> & _).
    apply (split_go_no_sep LF text [] (fun H => H) _ Hin).
    apply in_or_app. right. right. now right.
  - intros H. apply strip_In in H.
    assert (Hb : is_linebreak LF = false)
      by exact (splitlines_go_no_break text [] false
                  (fun c H => match H with end) l Hin LF H).
    discriminate.
Qed.

Lemma title_for_one_nonempty_line_witness :
  title_for (one_file (py " \n\n")) [py "a.md"] <> []
  /\ ~ In LF (title_for (one_file (py " \n\n")) [py "a.md"]).
Proof.
  apply (title_for_one_nonempty_line (one_file (py " \n\n")) [py "a.md"]).
  - vm_compute. discriminate.
  - apply not_in_by_mem. vm_compute. reflexivity.
Defined.

(** ** The order of the files *)

Section StableSortOn.
Variables (A K : Type) (lt eqk : K -> K -> bool) (key : A -> K) (ok : K -> Prop).
Hypothesis key_ok : forall x, ok (key x).
Hypothesis lt_asym_on :
  forall a b, ok a -> ok b -> lt a b = true -> lt b a = false.
Hypothesis le_trans_on :
  forall a b c, ok a -> ok b -> ok c ->
                lt b a = false -> lt c b = false -> lt c a = false.
Hypothesis lt_eqk :
  forall a b k, eqk a k = true -> eqk b k = true -> lt a b = false.

Lemma insert_by_sorted_on (x : A) (l : list A) :
  StronglySorted (fun a b => lt (key b) (key a) = false) l ->
  StronglySorted (fun a b => lt (key b) (key a) = false) (insert_by lt key x l).
Proof using key_ok lt_asym_on le_trans_on.
  induction 1 as [|y l Hl IH Hy]; simpl.
  - constructor; constructor.
  - destruct (lt (key y) (key x)) eqn:Hyx.
    + constructor; [exact IH|].
      rewrite Forall_forall in *. intros z Hz.
      apply (Permutation_in _ (Permutation_sym (insert_by_perm _ _ lt key x l)))
        in Hz.
      destruct Hz as [<-|Hz]; [now apply lt_asym_on|now apply Hy].
    + constructor; [now constructor|].
      constructor; [exact Hyx|].
      rewrite Forall_forall in *. intros z Hz.
      apply (le_trans_on (key x) (key y) (key z)); auto.
Qed.

Lemma sorted_by_sorted_on (l : list A) :
  StronglySorted (fun a b => lt (key b) (key a) = false) (sorted_by lt key l).
Proof using key_ok lt_asym_on le_trans_on.
  induction l as [|x l IH]; simpl; [constructor|now apply insert_by_sorted_on].
Qed.

Lemma insert_by_filter (k : K) (x : A) (l : list A) :
  filter (fun z => eqk (key z) k) (insert_by lt key x l)
  = filter (fun z => eqk (key z) k) (x :: l).
Proof using lt_eqk.
  induction l as [|y l IH]; [reflexivity|].
  cbn [insert_by]. destruct (lt (key y) (key x)) eqn:Hyx; [|reflexivity].
  cbn [filter] in *. rewrite IH.
  destruct (eqk (key y) k) eqn:Hy; destruct (eqk (key x) k) eqn:Hx;
    try reflexivity.
  now rewrite (lt_eqk _ _ _ Hy Hx) in Hyx.
Qed.

Lemma sorted_by_filter (k : K) (l : list A) :
  filter (fun z => eqk (key z) k) (sorted_by lt key l)
  = filter (fun z => eqk (key z) k) l.
Proof using lt_eqk.
  induction l as [|x l IH]; [reflexivity|].
  cbn [sorted_by]. rewrite insert_by_filter. cbn [filter]. now rewrite IH.
Qed.
End StableSortOn.

Lemma key_eqb_eq (a b : key) : key_eqb a b = true -> a = b.
Proof.
  destruct a as [s|t s], b as [s'|t' s']; simpl; try discriminate.
  - intros H. apply str_eqb_eq in H. now subst.
  - intros H. apply andb_prop in H as [Ht Hs].
    apply Z.eqb_eq in Ht. apply str_eqb_eq in Hs. now subst.
Qed.

Lemma key_ltb_irrefl (a : key) : key_ltb a a = false.
Proof.
  destruct a as [s|t s]; simpl; [apply str_ltb_irrefl|].
  now rewrite Z.ltb_irrefl, Z.eqb_refl, str_ltb_irrefl.
Qed.

Lemma key_ltb_asym_on (mode : sort_mode) (a b : key) :
  key_of_mode mode a -> key_of_mode mode b ->
  key_ltb a b = true -> key_ltb b a = false.
Proof.
  destruct a as [s|t s], b as [s'|t' s']; simpl; intros _ _ H;
    try reflexivity; try discriminate.
  - now apply str_ltb_asym.
  - apply orb_prop in H as [H|H].
    + apply Z.ltb_lt in H.
      assert (H1 : (t' <? t)%Z = false) by (apply Z.ltb_ge; lia).
      assert (H2 : (t' =? t)%Z = false) by (apply Z.eqb_neq; lia).
      now rewrite H1, H2.
    + apply andb_prop in H as [Ht Hs]. apply Z.eqb_eq in Ht. subst t'.
      now rewrite Z.ltb_irrefl, Z.eqb_refl, (str_ltb_asym _ _ Hs).
Qed.

Lemma key_leb_trans_on (mode : sort_mode) (a b c : key) :
  key_of_mode mode a -> key_of_mode mode b -> key_of_mode mode c ->
  key_ltb b a = false -> key_ltb c b = false -> key_ltb c a = false.
Proof.
  destruct mode, a as [s|t s], b as [s'|t' s'], c as [s''|t'' s'']; simpl;
    try contradiction; intros _ _ _ Hab Hbc;
    try (now apply (str_leb_trans s s' s'')).
  apply orb_false_elim in Hab as [Hab1 Hab2].
  apply orb_false_elim in Hbc as [Hbc1 Hbc2].
  apply Z.ltb_ge in Hab1, Hbc1.
  apply orb_false_intro; [apply Z.ltb_ge; lia|].
  destruct (Z.eqb_spec t'' t) as [->|Hne]; [|reflexivity].
  assert (t' = t) by lia. subst t'.
  rewrite Z.eqb_refl in Hab2, Hbc2. simpl in *.
  now apply (str_leb_trans s s' s'').
Qed.

Lemma sort_key_of_mode `{StrCase} (fs : node) (mode : sort_mode) (p : path) :
  key_of_mode mode (sort_key fs mode p).
Proof.
  destruct mode; simpl; try exact I. now destruct (stat_mtime fs p).
Qed.


(** ** Extensions *)

Lemma rfind_chr_None (c : N) (s : str) : rfind_chr c s = None -> ~ In c s.
Proof.
  induction s as [|x s IH]; simpl; [auto|].
  destruct (rfind_chr c s); [discriminate|].
  destruct (N.eqb_spec x c) as [Hx|Hx]; [discriminate|].
  intros _ [H|H]; [congruence|now apply IH].
Qed.

Lemma rfind_chr_Some (c : N) (s : str) (i : nat) :
  rfind_chr c s = Some i ->
  exists a b, s = a ++ c :: b /\ length a = i /\ ~ In c b.
Proof.
  revert i; induction s as [|x s IH]; intros i; simpl; [discriminate|].
  destruct (rfind_chr c s) as [j|] eqn:Hj.
  - intros [= <-]. destruct (IH j eq_refl) as (a & b & -> & Ha & Hb).
    exists (x :: a), b. simpl. auto.
  - destruct (N.eqb_spec x c) as [Hx|Hx]; [|discriminate].
    intros [= <-]. exists [], s. subst x. repeat split.
    now apply rfind_chr_None.
Qed.

Lemma suffix_parts (p : path) :
  (suffix p = [] /\ stem p = name p)
  \/ exists ext, ext <> [] /\ ~ In DOT ext /\ stem p <> []
                 /\ suffix p = DOT :: ext /\ name p = stem p ++ DOT :: ext.
Proof.
  unfold suffix, stem, suffix_index.
  destruct (rfind_chr DOT (name p)) as [i|] eqn:Hi; [|now left].
  destruct ((0 <? i) && (i <? length (name p) - 1)) eqn:Hb; [|now left].
  right. apply andb_prop in Hb as [H0 H1].
  apply Nat.ltb_lt in H0, H1.
  apply rfind_chr_Some in Hi as (a & b & Hn & Ha & Hb).
  rewrite Hn in *. rewrite length_app in H1. simpl in H1.
  exists b. rewrite <- Ha, firstn_length_app, skipn_length_app.
  repeat split; auto.
  - destruct b; [simpl in H1; lia|discriminate].
  - destruct a; [simpl in Ha; lia|discriminate].
Qed.

Lemma lstrip_dot_ext (ext : str) :
  ~ In DOT ext -> lstrip_chars (py ".") (DOT :: ext) = ext.
Proof.
  intros Hn. change (py ".") with [DOT]. unfold lstrip_chars, mem_chr.
  cbn [lstrip_with existsb]. rewrite N.eqb_refl. cbn [orb].
  destruct ext as [|c ext]; [reflexivity|].
  cbn [lstrip_with].
  destruct (N.eqb_spec c DOT) as [Hc|Hc]; [exfalso; apply Hn; now left|].
  reflexivity.
Qed.

(** Every file that the scan yields is a regular file below the source
    directory whose name is a non-empty stem, a dot and one of the
    accepted extensions, written exactly as in the list (the comparison
    is case-sensitive); a name without such a suffix is yielded only if
    the empty string is among the extensions. *)
Theorem listed_files_have_accepted_extension (fs : node) (src : path)
  (ex exts : list str) (found : list path) (p : path) :
  iter_markdown_files fs src ex exts = Ok found ->
  In p found ->
  is_file fs p = true
  /\ (exists rel, p = src ++ rel)
  /\ ((suffix p = [] /\ In [] exts)
      \/ exists ext, In ext exts /\ ext <> [] /\ ~ In DOT ext
                     /\ stem p <> [] /\ name p = stem p ++ DOT :: ext).
Proof.
  rewrite iter_markdown_files_filter. intros [= <-] Hp.
  apply filter_In in Hp as [Hp Hkeep].
  apply andb_prop in Hkeep as [Hkeep _].
  apply andb_prop in Hkeep as [Hfile Hext].
  split; [exact Hfile|]. split; [now apply rglob_below in Hp|].
  apply mem_str_In in Hext.
  destruct (suffix_parts p) as [[Hs _]|(ext & Hne & Hdot & Hstem & Hs & Hname)].
  - left. rewrite Hs in Hext. auto.
  - right. exists ext. rewrite Hs, lstrip_dot_ext in Hext by exact Hdot. auto.
Qed.

Lemma listed_files_have_accepted_extension_witness :
  is_file keep_and_archive (adr ++ [py "keep.md"]) = true
  /\ (exists rel, adr ++ [py "keep.md"] = adr ++ rel)
  /\ ((suffix (adr ++ [py "keep.md"]) = [] /\ In [] [py "md"])
      \/ exists ext, In ext [py "md"] /\ ext <> [] /\ ~ In DOT ext
                     /\ stem (adr ++ [py "keep.md"]) <> []
                     /\ name (adr ++ [py "keep.md"])
                        = stem (adr ++ [py "keep.md"]) ++ DOT :: ext).
Proof.
  apply (listed_files_have_accepted_extension keep_and_archive adr
           [py "archive/**"] [py "md"] [adr ++ [py "keep.md"]]).
  - vm_compute. reflexivity.
  - now left.
Defined.

Lemma rstrip_with_cons (p : N -> bool) (c : N) (u : str) :
  p c = false -> rstrip_with p (c :: u) = c :: rstrip_with p u.
Proof.
  intros Hc. unfold rstrip_with. cbn [rev].
  destruct (lstrip_with p (rev u)) as [|x r] eqn:Hu.
  - destruct (lstrip_with_split p (rev u)) as (a & Ha & Hall).
    rewrite Hu, app_nil_r in Ha. rewrite <- Ha in Hall.
    rewrite lstrip_with_app_all by exact Hall. simpl. now rewrite Hc.
  - rewrite lstrip_with_keep by (rewrite Hu; discriminate).
    rewrite Hu, rev_app_distr. reflexivity.
Qed.

Lemma strip_fixed (s : str) : strip (strip s) = strip s.
Proof.
  unfold strip. destruct (lstrip_with isspace s) as [|c u] eqn:Hs; [reflexivity|].
  pose proof (lstrip_with_head isspace s c u Hs) as Hc.
  rewrite rstrip_with_cons by exact Hc.
  cbn [lstrip_with]. rewrite Hc.
  rewrite <- (rstrip_with_cons isspace c u Hc).
  unfold rstrip_with. rewrite rev_involutive, lstrip_with_fixed. reflexivity.
Qed.

(** The extensions read from the option are the pieces between the
    commas, trimmed, without the empty ones: each is non-empty, holds no
    comma and has no white space at either end.  With such a list no file
    without a suffix is ever yielded. *)
Theorem parse_extensions_clean (extensions_ : str) :
  (forall e, In e (parse_extensions extensions_) ->
             e <> [] /\ ~ In COMMA e /\ strip e = e)
  /\ (forall fs src ex found p,
         iter_markdown_files fs src ex (parse_extensions extensions_) = Ok found ->
         In p found -> suffix p <> []).
Proof.
  assert (Hclean : forall e, In e (parse_extensions extensions_) ->
                             e <> [] /\ ~ In COMMA e /\ strip e = e).
  { intros e He. unfold parse_extensions in He.
    apply filter_In in He as [He Hne].
    apply in_map_iff in He as (piece & <- & Hpiece).
    split; [|split].
    - apply negb_true_iff, str_eqb_neq in Hne. exact Hne.
    - intros H. apply strip_In in H.
      exact (split_go_no_sep COMMA extensions_ [] (fun H => H) piece Hpiece H).
    - apply strip_fixed. }
  split; [exact Hclean|].
  intros fs src ex found p Hiter Hp Hs.
  rewrite iter_markdown_files_filter in Hiter. injection Hiter as <-.
  apply filter_In in Hp as [_ Hkeep].
  apply andb_prop in Hkeep as [Hkeep _]. apply andb_prop in Hkeep as [_ Hext].
  rewrite Hs in Hext. apply mem_str_In in Hext.
  now destruct (Hclean [] Hext) as [Hne _].
Qed.


(** ** What a run can do *)

Lemma replace_between_markers_error (content s e r : str) (err : exn) :
  replace_between_markers content s e r = Raise err ->
  err = RuntimeError (markers_not_found s e).
Proof.
  unfold replace_between_markers.
  destruct (search (marker_pattern s e) content); [discriminate|].
  now intros [= <-].
Qed.

Lemma read_text_error (fs : node) (p : path) (e : exn) :
  read_text fs p = Raise e -> e = OSError.
Proof.
  unfold read_text. destruct (lookup p fs) as [[[t|] m|m es]|];
    try discriminate; now intros [= <-].
Qed.

Lemma main_shape `{StrCase} (a : args) (cwd : path) (now : Z) (fs : node) :
  (exists pr, main a cwd now fs = Exit 2 pr fs)
  \/ (exists pr, main a cwd now fs = Exit 3 pr fs)
  \/ main a cwd now fs = Exit 0 no_changes_needed fs
  \/ (exists st pr fs' updated d t,
         (st = 0 \/ st = 1)%Z
         /\ main a cwd now fs = Exit st pr fs'
         /\ lookup (resolve cwd (target_file a)) fs = Some (File d t)
         /\ write_text (resolve cwd (target_file a)) updated now fs = Some fs')
  \/ (main a cwd now fs = Uncaught OSError
      /\ exists_ fs (resolve cwd (src_dir a)) = true
      /\ exists_ fs (resolve cwd (target_file a)) = true
      /\ read_text fs (resolve cwd (target_file a)) = Raise OSError).
Proof.
  destruct (exists_ fs (resolve cwd (src_dir a))) eqn:Hsrc.
  2:{ left. unfold main. rewrite Hsrc. eexists. reflexivity. }
  destruct (exists_ fs (resolve cwd (target_file a))) eqn:Htgt.
  2:{ left. unfold main. rewrite Hsrc, Htgt. eexists. reflexivity. }
  destruct (read_text fs (resolve cwd (target_file a))) as [original|e] eqn:Hread.
  - destruct (main_run a cwd now fs original Hsrc Hread)
      as (found & list_md & _ & _ & Hrun).
    rewrite Hrun.
    destruct (replace_between_markers original (marker_start a) (marker_end a)
                list_md) as [[updated changed]|err] eqn:Hrep.
    + destruct changed; [|right; right; now left].
      destruct (read_text_file _ _ _ Hread) as (d & t & Hfile).
      destruct (write_text_ok _ updated now fs d t Hfile) as (fs' & Hw & _).
      rewrite Hw. right. right. right. left.
      exists (if no_fail_on_change a then 0%Z else 1%Z). eexists.
      exists fs', updated, d, t.
      split; [destruct (no_fail_on_change a); auto|]. auto.
    + rewrite (replace_between_markers_error _ _ _ _ _ Hrep).
      right. left. eexists. reflexivity.
  - right. right. right. right.
    pose proof (read_text_error _ _ _ Hread) as ->.
    split; [|auto].
    destruct (iter_markdown_files fs (resolve cwd (src_dir a)) (exclude a)
                (parse_extensions (extensions a))) as [found|e] eqn:Hiter.
    2:{ rewrite iter_markdown_files_filter in Hiter. discriminate. }
    destruct (build_list_markdown_total fs
                (sorted_by key_ltb (sort_key fs (sort a)) found)
                (resolve cwd (target_file a)) (resolve cwd (src_dir a))
                (group_by a) (group_depth a) (group_heading_level a)
                (group_title_case a)
                (sorted_by_below fs (sort a) _ found
                   (iter_markdown_files_below _ _ _ _ _ Hiter)))
      as (list_md & Hbuild).
    unfold main. rewrite Hsrc, Htgt. cbn [negb].
    now rewrite Hiter, Hbuild, Hread.
Qed.


(** ** Every file is listed once *)

Lemma filter_split_perm (A : Type) (p : A -> bool) (l : list A) :
  Permutation l (filter p l ++ filter (fun x => negb (p x)) l).
Proof.
  induction l as [|x l IH]; simpl; [constructor|].
  destruct (p x); simpl.
  - now constructor.
  - eapply Permutation_trans; [apply perm_skip, IH|]. apply Permutation_middle.
Qed.

Lemma flat_map_ext_in (A B : Type) (f g : A -> list B) (l : list A) :
  (forall x, In x l -> f x = g x) -> flat_map f l = flat_map g l.
Proof.
  induction l as [|x l IH]; intros H; simpl; [reflexivity|].
  rewrite (H x (or_introl eq_refl)), IH; [reflexivity|].
  intros y Hy. apply H. now right.
Qed.

Lemma map_flat_map (A B C : Type) (f : B -> C) (g : A -> list B) (l : list A) :
  map f (flat_map g l) = flat_map (fun x => map f (g x)) l.
Proof.
  induction l as [|x l IH]; simpl; [reflexivity|]. now rewrite map_app, IH.
Qed.

Lemma partition_by_keys (key_ : path -> str) (ks : list str) :
  NoDup ks ->
  forall files,
    (forall f, In f files -> In (key_ f) ks) ->
    Permutation files
      (flat_map (fun k => filter (fun f => str_eqb (key_ f) k) files) ks).
Proof.
  induction 1 as [|k ks Hk Hnd IH]; intros files Hall.
  - destruct files as [|f files]; [constructor|].
    destruct (Hall f (or_introl eq_refl)).
  - cbn [flat_map].
    eapply Permutation_trans;
      [apply (filter_split_perm _ (fun f => str_eqb (key_ f) k))|].
    apply Permutation_app_head.
    rewrite (flat_map_ext_in _ _
               (fun k' => filter (fun f => str_eqb (key_ f) k') files)
               (fun k' => filter (fun f => str_eqb (key_ f) k')
                            (filter (fun f => negb (str_eqb (key_ f) k)) files))).
    + apply IH. intros f Hf. apply filter_In in Hf as [Hf Hne].
      destruct (Hall f Hf) as [Heq|Hin]; [|exact Hin].
      cbv beta in Hne. rewrite <- Heq, str_eqb_refl in Hne. discriminate.
    + intros k' Hk'. induction files as [|f files IHf]; [reflexivity|].
      cbn [filter].
      rewrite IHf by (intros f' Hf'; apply Hall; now right).
      destruct (str_eqb_spec (key_ f) k') as [He|He].
      * destruct (str_eqb_spec (key_ f) k) as [He'|He'].
        -- exfalso. apply Hk. congruence.
        -- cbn [negb filter]. now rewrite He, str_eqb_refl.
      * destruct (negb (str_eqb (key_ f) k)); [|reflexivity].
        cbn [filter]. destruct (str_eqb_spec (key_ f) k'); [congruence|reflexivity].
Qed.

(** In subdirectory mode no file is lost and none is repeated: the item
    lines of the blocks, taken together, are the items of the input
    files, each as often as the file occurs in the input. *)
Theorem every_file_listed_once `{StrCase} (fs : node) (files : list path)
  (target src : path) (depth level : Z) (mode : case_mode) :
  Forall (fun f => exists rel, f = src ++ rel) files ->
  exists ks,
    build_list_markdown fs files target src GroupSubdir depth level mode =
    Ok (join_trimmed
          (flat_map
             (fun k =>
                group_header k level mode
                :: map (list_item fs (parent target))
                     (filter (fun f => str_eqb (key_of src depth f) k) files)
                   ++ [[]])
             ks))
    /\ Permutation
         (map (list_item fs (parent target)) files)
         (flat_map
            (fun k =>
               map (list_item fs (parent target))
                 (filter (fun f => str_eqb (key_of src depth f) k) files))
            ks).
Proof.
  intros Hfiles.
  destruct (make_groups_spec src depth files [] Hfiles) as (g & Hg & Hf & Hn & Hk).
  exists (sorted_by str_ltb str_lower (map fst g)). split.
  - unfold build_list_markdown. rewrite Hg. unfold group_lines.
    do 2 f_equal. apply flat_map_ext. intros k. now rewrite Hf.
  - rewrite <- map_flat_map. apply Permutation_map.
    apply partition_by_keys.
    + eapply Permutation_NoDup; [apply sorted_by_perm|]. apply Hn. constructor.
    + intros f Hin.
      apply (Permutation_in _ (sorted_by_perm _ _ str_ltb str_lower _)).
      apply Hk. right. now exists f.
Qed.

Lemma every_file_listed_once_witness :
  exists ks,
    build_list_markdown grouping_tree grouping_files [py "README.md"] adr
      GroupSubdir 1 2 CaseTitle =
    Ok (join_trimmed
          (flat_map
             (fun k =>
                group_header k 2 CaseTitle
                :: map (list_item grouping_tree (parent [py "README.md"]))
                     (filter (fun f => str_eqb (key_of adr 1 f) k) grouping_files)
                   ++ [[]])
             ks))
    /\ Permutation
         (map (list_item grouping_tree (parent [py "README.md"])) grouping_files)
         (flat_map
            (fun k =>
               map (list_item grouping_tree (parent [py "README.md"]))
                 (filter (fun f => str_eqb (key_of adr 1 f) k) grouping_files))
            ks).
Proof.
  apply (every_file_listed_once grouping_tree grouping_files
           [py "README.md"] adr 1 2 CaseTitle).
  repeat constructor.
  - now exists [py "db"; py "001.md"].
  - now exists [py "api"; py "002.md"].
  - now exists [py "003.md"].
Defined.

(** ** One line per file *)

Lemma not_newline_all (s : str) : ~ In LF s -> forallb not_newline s = true.
Proof.
  intros Hn. apply forallb_forall. intros c Hc. unfold not_newline.
  apply negb_true_iff, N.eqb_neq. intros ->. now apply Hn.
Qed.

Lemma join_In (sep : str) (parts : list str) (c : N) :
  In c (join sep parts) -> In c sep \/ exists part, In part parts /\ In c part.
Proof.
  induction parts as [|p parts IH]; [contradiction|].
  destruct parts as [|q parts].
  - intros H. right. exists p. split; [now left|exact H].
  - change (join sep (p :: q :: parts)) with (p ++ sep ++ join sep (q :: parts)).
    rewrite !in_app_iff. intros [H|[H|H]].
    + right. exists p. split; [now left|exact H].
    + now left.
    + destruct (IH H) as [Hs|(part & Hin & Hc)]; [now left|].
      right. exists part. split; [now right|exact Hc].
Qed.

Lemma relpath_parts_In (p start : path) (seg : str) :
  In seg (relpath_parts p start) -> seg = py ".." \/ In seg p.
Proof.
  revert start; induction p as [|a p IH]; intros start.
  - destruct start; simpl; rewrite ?app_nil_r; intros H;
      left; [contradiction|]. destruct H as [<-|H]; [reflexivity|].
    now apply repeat_spec in H.
  - destruct start as [|b start]; simpl.
    + auto.
    + destruct (str_eqb a b).
      * intros H. destruct (IH start H); auto.
      * intros [<-|H]; [now left|].
        apply in_app_or in H as [H|H]; [left; now apply repeat_spec in H|].
        now right.
Qed.

Lemma relpath_no_newline (p start : path) :
  (forall seg, In seg p -> ~ In LF seg) -> ~ In LF (relpath p start).
Proof.
  intros Hp. unfold relpath.
  destruct (relpath_parts p start) as [|part parts] eqn:Hparts.
  - vm_compute. intros [H|[]]. discriminate.
  - intros H. apply join_In in H as [[H|[]]|(seg & Hin & Hc)]; [discriminate|].
    rewrite <- Hparts in Hin. apply relpath_parts_In in Hin as [->|Hin].
    + vm_compute in Hc. destruct Hc as [Hc|[Hc|[]]]; discriminate.
    + now apply (Hp seg Hin).
Qed.

Lemma last_In_or_default (A : Type) (l : list A) (d : A) :
  List.last l d = d \/ In (List.last l d) l.
Proof.
  induction l as [|x l IH]; [now left|].
  destruct l as [|y l]; [right; now left|].
  change (List.last (x :: y :: l) d) with (List.last (y :: l) d).
  destruct IH as [->|H]; [now left|right; now right].
Qed.

Lemma stem_no_newline (p : path) :
  (forall seg, In seg p -> ~ In LF seg) -> ~ In LF (stem p).
Proof.
  intros Hp.
  assert (Hname : ~ In LF (name p)).
  { unfold name. destruct (last_In_or_default _ p []) as [->|Hin]; [auto|].
    now apply Hp. }
  unfold stem. destruct (suffix_index (name p)) as [i|]; [|exact Hname].
  intros H. apply Hname. rewrite <- (firstn_skipn i (name p)).
  apply in_or_app. now left.
Qed.

Lemma title_for_no_newline (fs : node) (p : path) :
  ~ In LF (stem p) -> ~ In LF (title_for fs p).
Proof.
  intros Hlf. unfold title_for.
  destruct (read_text fs p) as [text|e]; [|exact Hlf].
  destruct (title_of_text_cases (stem p) text) as [-> | (_ & Hfrom)];
    [exact Hlf|].
  destruct Hfrom as [(line & X & Hin & Hline & ->)|(l & Hin & ->)].
  - intros H. apply strip_In in H.
    apply heading_text_inv in Hline as (ind & w & -> & _).
    apply (split_go_no_sep LF text [] (fun H => H) _ Hin).
    apply in_or_app. right. right. now right.
  - intros H. apply strip_In in H.
    assert (Hb : is_linebreak LF = false)
      by exact (splitlines_go_no_break text [] false
                  (fun c H => match H with end) l Hin LF H).
    discriminate.
Qed.

Lemma list_item_no_newline (fs : node) (target_dir f : path) :
  (forall seg, In seg f -> ~ In LF seg) -> ~ In LF (list_item fs target_dir f).
Proof.
  intros Hf. unfold list_item. rewrite replace_brackets_once.
  rewrite !in_app_iff. intros [H|[H|[H|[H|H]]]].
  - vm_compute in H. intuition discriminate.
  - unfold escape_brackets in H. apply in_flat_map in H as (c & Hc & H).
    assert (Hc' : c <> LF).
    { intros ->. now apply (title_for_no_newline fs f (stem_no_newline f Hf)). }
    destruct (N.eqb c LBRACKET || N.eqb c RBRACKET);
      simpl in H; intuition (try discriminate; congruence).
  - vm_compute in H. intuition discriminate.
  - now apply (relpath_no_newline f target_dir Hf).
  - vm_compute in H. intuition discriminate.
Qed.

Lemma join_lines (ls : list str) :
  join [LF] ls ++ match ls with [] => [] | _ :: _ => [LF] end
  = concat (map (fun l => l ++ [LF]) ls).
Proof.
  induction ls as [|l ls IH]; [reflexivity|].
  destruct ls as [|l2 ls].
  - simpl. now rewrite app_nil_r.
  - change (join [LF] (l :: l2 :: ls)) with (l ++ [LF] ++ join [LF] (l2 :: ls)).
    cbn [map concat]. cbn [map concat] in IH. rewrite <- IH.
    now rewrite <- !app_assoc.
Qed.

(** Without grouping the output is the items of the files in input order,
    each followed by a newline (nothing at all for no file); when no
    segment of a file path holds a newline, splitting the output at the
    newlines gives the items back, one per line. *)
Theorem ungrouped_one_line_per_file `{StrCase} (fs : node) (files : list path)
  (target src : path) (depth level : Z) (mode : case_mode) :
  (forall f seg, In f files -> In seg f -> ~ In LF seg) ->
  exists out,
    build_list_markdown fs files target src GroupNone depth level mode = Ok out
    /\ out = concat (map (fun f => list_item fs (parent target) f ++ [LF]) files)
    /\ split_chr LF out = map (list_item fs (parent target)) files ++ [[]].
Proof.
  intros Hfiles. eexists. split; [reflexivity|].
  rewrite join_lines, map_map. split; [reflexivity|].
  rewrite <- (map_map (list_item fs (parent target)) (fun l => l ++ [LF])).
  rewrite <- (app_nil_r (concat _)).
  rewrite split_chr_lines_before; [reflexivity|].
  apply Forall_forall. intros l Hl. apply in_map_iff in Hl as (f & <- & Hf).
  apply not_newline_all, list_item_no_newline. intros seg. now apply Hfiles.
Qed.

Lemma ungrouped_one_line_per_file_witness :
  exists out,
    build_list_markdown grouping_tree grouping_files [py "README.md"] adr
      GroupNone 1 2 CaseTitle = Ok out
    /\ out = concat (map (fun f => list_item grouping_tree (parent [py "README.md"]) f
                                   ++ [LF]) grouping_files)
    /\ split_chr LF out
       = map (list_item grouping_tree (parent [py "README.md"])) grouping_files
         ++ [[]].
Proof.
  apply (ungrouped_one_line_per_file grouping_tree grouping_files
           [py "README.md"] adr 1 2 CaseTitle).
  intros f seg Hf Hseg. apply not_in_by_mem.
  vm_compute in Hf.
  destruct Hf as [<-|[<-|[<-|[]]]]; vm_compute in Hseg;
    repeat (destruct Hseg as [<-|Hseg]; [vm_compute; reflexivity|]);
    destruct Hseg.
Defined.

(** ** Relative links lead back to the files *)

Lemma split_go_end (sep : N) (l cur : str) :
  ~ In sep l -> split_go sep cur l = [rev cur ++ l].
Proof.
  revert cur; induction l as [|c l IH]; intros cur Hn; simpl.
  - now rewrite app_nil_r.
  - destruct (N.eqb_spec c sep) as [->|_]; [exfalso; apply Hn; now left|].
    rewrite IH by (intros Hin; apply Hn; now right).
    simpl. now rewrite <- app_assoc.
Qed.

Lemma split_go_skip (sep : N) (l t cur : str) :
  ~ In sep l ->
  split_go sep cur (l ++ sep :: t) = (rev cur ++ l) :: split_go sep [] t.
Proof.
  revert cur; induction l as [|c l IH]; intros cur Hn; simpl.
  - now rewrite N.eqb_refl, app_nil_r.
  - destruct (N.eqb_spec c sep) as [->|_]; [exfalso; apply Hn; now left|].
    rewrite IH by (intros Hin; apply Hn; now right).
    simpl. now rewrite <- app_assoc.
Qed.

Lemma split_join (sep : N) (parts : list str) :
  parts <> [] -> (forall part, In part parts -> ~ In sep part) ->
  split_chr sep (join [sep] parts) = parts.
Proof.
  unfold split_chr. induction parts as [|p parts IH]; [congruence|].
  intros _ Hparts. destruct parts as [|q parts].
  - simpl. apply (split_go_end sep p []), Hparts. now left.
  - change (join [sep] (p :: q :: parts))
      with (p ++ sep :: join [sep] (q :: parts)).
    rewrite (split_go_skip sep p _ []) by (apply Hparts; now left).
    simpl rev. simpl app at 1. f_equal. apply IH; [discriminate|].
    intros part Hin. apply Hparts. now right.
Qed.

Lemma resolve_parts_app (acc : path) (a b : list str) :
  resolve_parts acc (a ++ b) = resolve_parts (resolve_parts acc a) b.
Proof.
  revert acc; induction a as [|s a IH]; intros acc; [reflexivity|].
  cbn [app resolve_parts].
  destruct (str_eqb s [] || str_eqb s (py ".")); [apply IH|].
  destruct (str_eqb s (py "..")); apply IH.
Qed.

Lemma resolve_parts_up (c s : path) :
  resolve_parts (c ++ s) (repeat (py "..") (length s)) = c.
Proof.
  induction s as [|x s IH] using rev_ind.
  - simpl. now rewrite app_nil_r.
  - rewrite length_app, Nat.add_comm. cbn [length Nat.add repeat resolve_parts].
    change (str_eqb (py "..") [] || str_eqb (py "..") (py ".")) with false.
    change (str_eqb (py "..") (py "..")) with true. cbv iota.
    now rewrite app_assoc, removelast_last.
Qed.

Lemma resolve_parts_proper (acc p : path) :
  (forall seg, In seg p -> proper_segment seg) -> resolve_parts acc p = acc ++ p.
Proof.
  revert acc; induction p as [|s p IH]; intros acc Hp; cbn [resolve_parts].
  - now rewrite app_nil_r.
  - destruct (Hp s (or_introl eq_refl)) as (H0 & H1 & H2 & _).
    apply str_eqb_neq in H0, H1, H2. rewrite H0, H1, H2. cbn [orb].
    rewrite IH by (intros seg Hin; apply Hp; now right).
    now rewrite <- app_assoc.
Qed.

Lemma relpath_parts_split (p start : path) :
  exists c s' p',
    start = c ++ s' /\ p = c ++ p'
    /\ relpath_parts p start = repeat (py "..") (length s') ++ p'.
Proof.
  revert start; induction p as [|a p IH]; intros start.
  - exists [], start, []. split; [reflexivity|split; [reflexivity|]].
    now destruct start.
  - destruct start as [|b start].
    + exists [], [], (a :: p). now repeat split.
    + simpl. destruct (str_eqb_spec a b) as [->|_].
      * destruct (IH start) as (c & s' & p' & -> & -> & Hr).
        exists (b :: c), s', p'. now repeat split.
      * exists [], (b :: start), (a :: p). now repeat split.
Qed.

Lemma repeat_In_eq (A : Type) (x y : A) (n : nat) : In y (repeat x n) -> y = x.
Proof. intros H. now apply repeat_spec in H. Qed.

(** The link of a list item leads back to its file: resolving
    [os.path.relpath(f, start)] against [start] gives [f], for every
    start directory, when the segments of [f] are proper file names (not
    empty, not [.] or [..], no slash).  The link is never an absolute
    path. *)
Theorem relative_link_resolves_to_file (f start : path) :
  (forall seg, In seg f -> proper_segment seg) ->
  starts_with [SLASH] (relpath f start) = false
  /\ resolve start (relpath f start) = f.
Proof.
  intros Hf.
  destruct (relpath_parts_split f start) as (c & s' & p' & Hs & Hp & Hr).
  assert (Hp' : forall seg, In seg p' -> proper_segment seg).
  { intros seg Hin. apply Hf. rewrite Hp. apply in_or_app. now right. }
  assert (Hrun : resolve_parts start (relpath_parts f start) = f).
  { rewrite Hr, resolve_parts_app, Hs, resolve_parts_up, Hp.
    now apply resolve_parts_proper. }
  assert (Hrel : starts_with [SLASH] (relpath f start) = false).
  { unfold relpath. rewrite Hr.
    destruct s' as [|x s']; [destruct p' as [|seg p']|]; try reflexivity.
    - destruct (Hp' seg (or_introl eq_refl)) as (H0 & _ & _ & Hsl).
      destruct seg as [|ch seg]; [congruence|].
      assert (Hne : N.eqb SLASH ch = false)
        by (apply N.eqb_neq; intros <-; apply Hsl; now left).
      cbn [length repeat app]. destruct p'; cbn [join app starts_with];
        now rewrite Hne.
    - cbn [length repeat app]. destruct (repeat (py "..") (length s') ++ p');
        reflexivity. }
  split; [exact Hrel|].
  unfold resolve. rewrite Hrel. unfold relpath in *.
  destruct (relpath_parts f start) as [|part parts] eqn:Hparts.
  - exact Hrun.
  - rewrite split_join; [exact Hrun|discriminate|].
    intros seg Hin. rewrite Hr in Hin. apply in_app_or in Hin as [Hin|Hin].
    + apply repeat_In_eq in Hin. subst seg. vm_compute.
      intros [H|[H|[]]]; discriminate.
    + now destruct (Hp' seg Hin) as (_ & _ & _ & Hsl).
Qed.

Lemma relative_link_resolves_to_file_witness :
  starts_with [SLASH]
    (relpath [py "repo"; py "docs"; py "adr"; py "0001-first.md"]
       [py "repo"; py "notes"]) = false
  /\ resolve [py "repo"; py "notes"]
       (relpath [py "repo"; py "docs"; py "adr"; py "0001-first.md"]
          [py "repo"; py "notes"])
     = [py "repo"; py "docs"; py "adr"; py "0001-first.md"].
Proof.
  apply (relative_link_resolves_to_file
           [py "repo"; py "docs"; py "adr"; py "0001-first.md"]
           [py "repo"; py "notes"]).
  intros seg Hin. vm_compute in Hin.
  destruct Hin as [<-|[<-|[<-|[<-|[]]]]];
    (repeat split; [discriminate|discriminate|discriminate|]);
    apply not_in_by_mem; vm_compute; reflexivity.
Defined.
